(** * typezod: schema combinators over the TypeScript type checker

    A shallow embedding of [src/index.ts].  The TypeScript compiler API is an
    external collaborator: it is modelled as an interface ([TsHost]) whose
    carriers are the compiler's objects and whose operations are the methods
    the source calls on them.  Schema predicates may throw and may fill the
    module resolution cache, so they live in a small state-and-error monad. *)

From Stdlib Require Import ZArith String Ascii List Bool Lia.
From stdpp Require Import base option list strings gmap.

Local Open Scope string_scope.
Local Open Scope Z_scope.

(** ** The host: [typescript] *)

(** Carriers are the objects of the compiler API; the operations are the
    methods and functions [index.ts] calls.  [TypeChecker] objects are compared
    by identity (they key a [WeakMap]), hence the decidable equality. *)
Class TsHost := {
  Ty : Type;
  Symbol : Type;
  SourceFile : Type;
  Program : Type;
  TypeChecker : Type;
  CompilerOptions : Type;
  TypeChecker_eq_dec :: EqDecision TypeChecker;
  TypeChecker_countable :: Countable TypeChecker;
  (* ts.Type *)
  getProperty : Ty -> string -> option Symbol;
  getNumberIndexType : Ty -> option Ty;
  isUnion : Ty -> bool;
  types : Ty -> list Ty;
  (* ts.Symbol *)
  flags : Symbol -> Z;
  getName : Symbol -> string;
  (* ts.SourceFile *)
  fileName : SourceFile -> string;
  (* ts.Program *)
  getCompilerOptions : Program -> CompilerOptions;
  getCurrentDirectory : Program -> string;
  getSourceFile : Program -> string -> option SourceFile;
  (* ts.TypeChecker *)
  isTypeAssignableTo : TypeChecker -> Ty -> Ty -> bool;
  getNumberType : TypeChecker -> Ty;
  getStringType : TypeChecker -> Ty;
  getBooleanType : TypeChecker -> Ty;
  getVoidType : TypeChecker -> Ty;
  getUndefinedType : TypeChecker -> Ty;
  getNullType : TypeChecker -> Ty;
  getTypeOfSymbol : TypeChecker -> Symbol -> Ty;
  getSymbolAtLocation : TypeChecker -> SourceFile -> option Symbol;
  getAmbientModules : TypeChecker -> list Symbol;
  getExportsOfModule : TypeChecker -> Symbol -> list Symbol;
  getDeclaredTypeOfSymbol : TypeChecker -> Symbol -> Ty;
  (* ts.resolveModuleName(moduleName, containingFile, options, ts.sys):
     the resolvedFileName of its resolvedModule, when there is one *)
  resolveModuleName : string -> string -> CompilerOptions -> option string
}.

(** ** Numbers, strings and JSON *)

Definition TS_SYMBOL_FLAGS_OPTIONAL : Z := 16777216.

(** The operands of JavaScript's [&] are converted to 32-bit signed integers. *)
Definition toInt32 (z : Z) : Z := (z + 2 ^ 31) mod 2 ^ 32 - 2 ^ 31.

Definition bitand (a b : Z) : Z := Z.land (toInt32 a) (toInt32 b).

(** [s.startsWith(p)] *)
Definition startsWith (s p : string) : bool := String.prefix p s.

Definition dquote : string := String "034"%char EmptyString.
Definition backslash : string := String "092"%char EmptyString.

Definition hexDigit (n : nat) : ascii :=
  match n with
  | 0 => "0" | 1 => "1" | 2 => "2" | 3 => "3" | 4 => "4" | 5 => "5"
  | 6 => "6" | 7 => "7" | 8 => "8" | 9 => "9" | 10 => "a" | 11 => "b"
  | 12 => "c" | 13 => "d" | 14 => "e" | _ => "f"
  end%char%nat.

(** How [JSON.stringify] writes one character of a string.  Strings are
    sequences of 8-bit code units here. *)
Definition jsonEscape (c : ascii) : string :=
  let n := nat_of_ascii c in
  if (n =? 34)%nat then backslash ++ dquote
  else if (n =? 92)%nat then backslash ++ backslash
  else if (n =? 8)%nat then backslash ++ "b"
  else if (n =? 12)%nat then backslash ++ "f"
  else if (n =? 10)%nat then backslash ++ "n"
  else if (n =? 13)%nat then backslash ++ "r"
  else if (n =? 9)%nat then backslash ++ "t"
  else if (n <? 32)%nat then
    backslash ++ "u00" ++
      String (hexDigit (n / 16)) (String (hexDigit (n mod 16)) EmptyString)
  else String c EmptyString.

Fixpoint jsonEscapeAll (s : string) : string :=
  match s with
  | EmptyString => EmptyString
  | String c r => jsonEscape c ++ jsonEscapeAll r
  end.

Definition jsonString (s : string) : string :=
  dquote ++ jsonEscapeAll s ++ dquote.

(** [JSON.stringify([moduleName, exportName, file])] with [file] a string or
    [null]. *)
Definition JSON_stringify (moduleName exportName : string)
    (file : option string) : string :=
  "[" ++ jsonString moduleName ++ "," ++ jsonString exportName ++ "," ++
  match file with Some f => jsonString f | None => "null" end ++ "]".

(** ** Evaluation: state and errors *)

(** The result of a JavaScript call: a value, or [throw new Error(message)]. *)
Inductive Result (A : Type) : Type :=
  | Ok (a : A)
  | Throw (message : string).
Arguments Ok {A} a.
Arguments Throw {A} message.

Section Evaluation.
Context `{host : TsHost}.

(** The module state of [index.ts].  [moduleTypeCache] is the [WeakMap] from
    checker to [Map<string, Type | null>].  [resolutions] is a ghost counter,
    not a variable of the source: it counts the calls of [resolveModuleType],
    so that "resolution was (not) attempted" can be stated. *)
Record State : Type := mkState {
  moduleTypeCache : gmap TypeChecker (gmap string (option Ty));
  resolutions : nat
}.

Definition M (A : Type) : Type := State -> Result A * State.

Definition ret {A} (a : A) : M A := fun st => (Ok a, st).

Definition throw {A} (message : string) : M A := fun st => (Throw message, st).

Definition bind {A B} (m : M A) (k : A -> M B) : M B :=
  fun st =>
    match m st with
    | (Ok a, st') => k a st'
    | (Throw e, st') => (Throw e, st')
    end.

End Evaluation.

Notation "'let!' x ':=' m 'in' k" := (bind m (fun x => k))
  (at level 10, x name, m at level 100, k at level 200).

Section Iteration.
Context `{host : TsHost}.

(** [l.every(f)] and [l.some(f)]: left to right, stopping at the first
    element that decides the answer; an exception of [f] propagates. *)
Fixpoint every {A} (f : A -> M bool) (l : list A) : M bool :=
  match l with
  | [] => ret true
  | x :: r => let! b := f x in if b then every f r else ret false
  end.

Fixpoint some {A} (f : A -> M bool) (l : list A) : M bool :=
  match l with
  | [] => ret false
  | x :: r => let! b := f x in if b then ret true else some f r
  end.

End Iteration.

(** ** Schemas *)

Section Schemas.
Context `{host : TsHost}.

Record SchemaContext : Type := mkContext {
  checker : TypeChecker;
  program : option Program;
  sourceFile : option SourceFile
}.

Definition AcceptsFn : Type := Ty -> SchemaContext -> M bool.

Record TypeSchema : Type := new_TypeSchema {
  _accepts : AcceptsFn;
  _isOptional : bool
}.

(** [const schema = (check) => new TypeSchema(check)]; the constructor's
    default for [isOptional] is [false]. *)
Definition schema (check : AcceptsFn) : TypeSchema := new_TypeSchema check false.

Definition isAssignableTo (ctx : SchemaContext) (type : Ty) (s : TypeSchema)
    : M bool :=
  _accepts s type ctx.

(** ** Module resolution *)

Definition resolveModuleType (checker : TypeChecker) (program : Program)
    (moduleName exportName : string) (sourceFile : option SourceFile)
    : option Ty :=
  let compilerOptions := getCompilerOptions program in
  let containingFile :=
    match sourceFile with
    | Some sf => fileName sf
    | None => getCurrentDirectory program ++ "/__typezod__.ts"
    end in
  let moduleSymbol :=
    match resolveModuleName moduleName containingFile compilerOptions with
    | Some resolvedFileName =>
        match getSourceFile program resolvedFileName with
        | Some resolvedSf => getSymbolAtLocation checker resolvedSf
        | None => None
        end
    | None => None
    end in
  let moduleSymbol :=
    match moduleSymbol with
    | Some m => Some m
    | None =>
        let quotedName := dquote ++ moduleName ++ dquote in
        find (fun s => String.eqb (getName s) quotedName)
             (getAmbientModules checker)
    end in
  match moduleSymbol with
  | None => None
  | Some moduleSymbol =>
      match find (fun s => String.eqb (getName s) exportName)
                 (getExportsOfModule checker moduleSymbol) with
      | None => None
      | Some exportSymbol => Some (getDeclaredTypeOfSymbol checker exportSymbol)
      end
  end.

Definition MISSING_PROGRAM : string :=
  "t.fromModule() requires `program` in the SchemaContext.".

Definition MISSING_SOURCE_FILE : string :=
  "t.fromModule() requires `sourceFile` in the SchemaContext for relative module specifiers.".

Definition UNRESOLVED (moduleName exportName : string) : string :=
  "t.fromModule(): could not resolve export " ++ dquote ++ exportName ++ dquote
  ++ " from module " ++ dquote ++ moduleName ++ dquote ++ ".".

Definition isRelative (moduleName : string) : bool :=
  startsWith moduleName "./" || startsWith moduleName "../".

(** The key of the per-checker map.  Past the guard of [fromModule] a relative
    specifier comes with a source file. *)
Definition cacheKey (moduleName exportName : string)
    (sourceFile : option SourceFile) : string :=
  JSON_stringify moduleName exportName
    (if isRelative moduleName then fileName <$> sourceFile else None).

(** [moduleTypeCache.get(checker)], creating and storing an empty map when the
    checker has none. *)
Definition getCache (checker : TypeChecker) : M (gmap string (option Ty)) :=
  fun st =>
    match moduleTypeCache st !! checker with
    | Some cache => (Ok cache, st)
    | None =>
        (Ok ∅, mkState (<[checker := ∅]> (moduleTypeCache st)) (resolutions st))
    end.

(** [cache.set(key, v)] on the map object stored for [checker]. *)
Definition cacheSet (checker : TypeChecker) (key : string) (v : option Ty)
    : M unit :=
  fun st =>
    let cache := default ∅ (moduleTypeCache st !! checker) in
    (Ok tt, mkState (<[checker := <[key := v]> cache]> (moduleTypeCache st))
                    (resolutions st)).

(** [cache.get(key)] on the map object stored for [checker]. *)
Definition cacheGet (checker : TypeChecker) (key : string)
    : M (option (option Ty)) :=
  fun st => (Ok (default ∅ (moduleTypeCache st !! checker) !! key), st).

(** The call [resolveModuleType(...)], counted. *)
Definition callResolveModuleType (checker : TypeChecker) (program : Program)
    (moduleName exportName : string) (sourceFile : option SourceFile)
    : M (option Ty) :=
  fun st =>
    (Ok (resolveModuleType checker program moduleName exportName sourceFile),
     mkState (moduleTypeCache st) (S (resolutions st))).

End Schemas.

Arguments new_TypeSchema {host} _accepts _isOptional.

(** ** The builder namespace [t] *)

Module t.
Section Builders.
Context `{host : TsHost}.

Definition number : TypeSchema :=
  schema (fun type ctx =>
    ret (isTypeAssignableTo (checker ctx) type (getNumberType (checker ctx)))).

Definition boolean : TypeSchema :=
  schema (fun type ctx =>
    ret (isTypeAssignableTo (checker ctx) type (getBooleanType (checker ctx)))).

Definition void : TypeSchema :=
  schema (fun type ctx =>
    ret (isTypeAssignableTo (checker ctx) type (getVoidType (checker ctx)))).

Definition undefined : TypeSchema :=
  schema (fun type ctx =>
    ret (isTypeAssignableTo (checker ctx) type
           (getUndefinedType (checker ctx)))).

Definition null : TypeSchema :=
  schema (fun type ctx =>
    ret (isTypeAssignableTo (checker ctx) type (getNullType (checker ctx)))).

Definition any : TypeSchema := schema (fun _ _ => ret true).

Definition unknown : TypeSchema := schema (fun _ _ => ret true).

(** [shape] lists [Object.entries(shape)] in its order. *)
Definition object (shape : list (String.string * TypeSchema)) : TypeSchema :=
  schema (fun type ctx =>
    every (fun entry =>
      let key := fst entry in
      let propSchema := snd entry in
      match getProperty type key with
      | None => ret (_isOptional propSchema)
      | Some propSymbol =>
          if negb (_isOptional propSchema) &&
             negb (bitand (flags propSymbol) TS_SYMBOL_FLAGS_OPTIONAL =? 0)
          then ret false
          else
            let propType := getTypeOfSymbol (checker ctx) propSymbol in
            _accepts propSchema propType ctx
      end) shape).

Definition array (element : TypeSchema) : TypeSchema :=
  schema (fun type ctx =>
    match getNumberIndexType type with
    | None => ret false
    | Some indexType => _accepts element indexType ctx
    end).

Definition union (members : list TypeSchema) : TypeSchema :=
  schema (fun type ctx =>
    if isUnion type then
      every (fun member => some (fun m => _accepts m member ctx) members)
            (types type)
    else some (fun m => _accepts m type ctx) members).

Definition intersection (members : list TypeSchema) : TypeSchema :=
  schema (fun type ctx => every (fun m => _accepts m type ctx) members).

Definition fromModule (moduleName exportName : String.string) : TypeSchema :=
  schema (fun type ctx =>
    match program ctx with
    | None => throw MISSING_PROGRAM
    | Some program =>
        if isRelative moduleName && negb (bool_decide (is_Some (sourceFile ctx)))
        then throw MISSING_SOURCE_FILE
        else
          let! cache := getCache (checker ctx) in
          let cacheKey := cacheKey moduleName exportName (sourceFile ctx) in
          let! _ :=
            (if negb (bool_decide (is_Some (cache !! cacheKey))) then
               let! resolved :=
                 callResolveModuleType (checker ctx) program moduleName
                   exportName (sourceFile ctx) in
               cacheSet (checker ctx) cacheKey resolved
             else ret tt) in
          let! targetType := cacheGet (checker ctx) cacheKey in
          match targetType with
          | Some (Some targetType) =>
              ret (isTypeAssignableTo (checker ctx) type targetType)
          | _ => throw (UNRESOLVED moduleName exportName)
          end
    end).

Definition custom (predicate : AcceptsFn) : TypeSchema := schema predicate.

Definition string : TypeSchema :=
  schema (fun type ctx =>
    ret (isTypeAssignableTo (checker ctx) type (getStringType (checker ctx)))).

End Builders.
End t.

(** ** The modifiers of [TypeSchema] *)

Section Modifiers.
Context `{host : TsHost}.

Definition optional (this : TypeSchema) : TypeSchema :=
  new_TypeSchema (_accepts (t.union [this; t.undefined])) true.

Definition nullable (this : TypeSchema) : TypeSchema :=
  t.union [this; t.null].

Definition nullish (this : TypeSchema) : TypeSchema :=
  optional (nullable this).

End Modifiers.

(** ** Schema objects in the JavaScript heap *)

(** A [TypeSchema] is a JavaScript object.  To speak about allocation and
    mutation the heap of schema objects is made explicit: an address is an
    index, [new TypeSchema(...)] appends a cell, and the methods take the
    address of their receiver.  The fields are [readonly] and assigned in the
    constructor only, so a closure that holds references to member schemas
    reads, when called, what these cells held when it was built. *)
Abbreviation Heap := (list TypeSchema).

Section Heap.
Context `{host : TsHost}.

Definition H (A : Type) : Type := Heap -> option (A * Heap).

(** [new TypeSchema(accepts, isOptional)] *)
Definition new (accepts : AcceptsFn) (isOptional : bool) : H nat :=
  fun h => Some (List.length h, (h ++ [new_TypeSchema accepts isOptional])%list).

(** Reading the object at an address; there is no dangling reference in
    JavaScript, so [None] is never met by the code. *)
Definition deref (r : nat) : H TypeSchema :=
  fun h => match h !! r with Some s => Some (s, h) | None => None end.

Definition hbind {A B} (m : H A) (k : A -> H B) : H B :=
  fun h => match m h with Some (a, h') => k a h' | None => None end.

Fixpoint derefAll (rs : list nat) : H (list TypeSchema) :=
  match rs with
  | [] => fun h => Some ([], h)
  | r :: rs' =>
      hbind (deref r) (fun s =>
      hbind (derefAll rs') (fun ss => fun h => Some (s :: ss, h)))
  end.

Definition new_schema (check : AcceptsFn) : H nat := new check false.

Definition new_undefined : H nat := new_schema (_accepts t.undefined).

Definition new_null : H nat := new_schema (_accepts t.null).

Definition new_union (members : list nat) : H nat :=
  hbind (derefAll members) (fun ms => new_schema (_accepts (t.union ms))).

(** [this.optional()] *)
Definition optional_method (this : nat) : H nat :=
  hbind new_undefined (fun u =>
  hbind (new_union [this; u]) (fun w =>
  hbind (deref w) (fun wnode =>
  new (_accepts wnode) true))).

(** [this.nullable()] *)
Definition nullable_method (this : nat) : H nat :=
  hbind new_null (fun n => new_union [this; n]).

(** [this.nullish()] *)
Definition nullish_method (this : nat) : H nat :=
  hbind (nullable_method this) optional_method.

End Heap.

(** ** Reading a JSON string back *)

(** The inverse of [jsonString], from the character after the opening quote:
    the string written and what follows its closing quote.  It is not part of
    [index.ts]; it serves to show that distinct keys are written as distinct
    strings. *)
Definition hexValue (c : ascii) : option nat :=
  let n := nat_of_ascii c in
  if (48 <=? n)%nat && (n <=? 57)%nat then Some (n - 48)%nat
  else if (97 <=? n)%nat && (n <=? 102)%nat then Some (n - 87)%nat
  else None.

Definition unescapeLetter (d : ascii) : option ascii :=
  let n := nat_of_ascii d in
  if (n =? 34)%nat then Some "034"%char
  else if (n =? 92)%nat then Some "092"%char
  else if (n =? 98)%nat then Some "008"%char
  else if (n =? 102)%nat then Some "012"%char
  else if (n =? 110)%nat then Some "010"%char
  else if (n =? 114)%nat then Some "013"%char
  else if (n =? 116)%nat then Some "009"%char
  else None.

Fixpoint jsonUnquote (input : string) : option (string * string) :=
  match input with
  | EmptyString => None
  | String c r =>
      if Ascii.eqb c "034" then Some (EmptyString, r)
      else if Ascii.eqb c "092" then
        match r with
        | EmptyString => None
        | String d r1 =>
            if Ascii.eqb d "u" then
              match r1 with
              | String _ (String _ (String x (String y r2))) =>
                  match hexValue x, hexValue y, jsonUnquote r2 with
                  | Some a, Some b, Some (s, rest) =>
                      Some (String (ascii_of_nat (16 * a + b)) s, rest)
                  | _, _, _ => None
                  end
              | _ => None
              end
            else
              match unescapeLetter d, jsonUnquote r1 with
              | Some ch, Some (s, rest) => Some (String ch s, rest)
              | _, _ => None
              end
        end
      else
        match jsonUnquote r with
        | Some (s, rest) => Some (String c s, rest)
        | None => None
        end
  end.

(** ** Notions used by the statements *)

Section Notions.
Context `{host : TsHost}.


(** The value of [moduleSymbol] at the test [if (!moduleSymbol) return null]
    of [resolveModuleType]. *)
Definition moduleSymbolOf (checker : TypeChecker) (program : Program)
    (moduleName : string) (sourceFile : option SourceFile) : option Symbol :=
  let containingFile :=
    match sourceFile with
    | Some sf => fileName sf
    | None => getCurrentDirectory program ++ "/__typezod__.ts"
    end in
  match
    match resolveModuleName moduleName containingFile
            (getCompilerOptions program) with
    | Some resolvedFileName =>
        match getSourceFile program resolvedFileName with
        | Some resolvedSf => getSymbolAtLocation checker resolvedSf
        | None => None
        end
    | None => None
    end
  with
  | Some m => Some m
  | None =>
      find (fun s => String.eqb (getName s) (dquote ++ moduleName ++ dquote))
           (getAmbientModules checker)
  end.

(** The two ways in which [resolveModuleType] returns [null]. *)
Definition noModuleMatched checker program moduleName sourceFile : Prop :=
  moduleSymbolOf checker program moduleName sourceFile = None.

Definition exportNotFound checker program moduleName exportName sourceFile
    : Prop :=
  exists m, moduleSymbolOf checker program moduleName sourceFile = Some m /\
    find (fun s => String.eqb (getName s) exportName)
         (getExportsOfModule checker m) = None.

(** The entry of the cache of [checker] under [key]. *)
Definition entry (st : State) (checker : TypeChecker) (key : string)
    : option (option Ty) :=
  default ∅ (moduleTypeCache st !! checker) !! key.

(** Every entry of [st1] is an entry of [st2], with the same outcome. *)
Definition entriesKept (st1 st2 : State) : Prop :=
  forall ch key v, entry st1 ch key = Some v -> entry st2 ch key = Some v.

(** The evaluation gets past the two guards of [fromModule], and so computes
    a cache key: there is a program, and a source file when the specifier is
    relative. *)
Definition reachesCache (ctx : SchemaContext) (moduleName : string) : Prop :=
  is_Some (program ctx) /\
  (isRelative moduleName = true -> is_Some (sourceFile ctx)).

(** The composite key of an evaluation: checker, module specifier, export
    name, and the resolving file of a relative specifier. *)
Definition compositeKey (ctx : SchemaContext) (moduleName exportName : string)
    : TypeChecker * string * string * option string :=
  (checker ctx, moduleName, exportName,
   if isRelative moduleName then fileName <$> sourceFile ctx else None).

(** The cache agrees with the resolver: what is stored for the checker of
    [ctx] under the key of a module reference is what [resolveModuleType]
    returns for it under [ctx] and [p]. *)
Definition coherent (ctx : SchemaContext) (p : Program) (st : State) : Prop :=
  forall moduleName exportName v,
    entry st (checker ctx) (cacheKey moduleName exportName (sourceFile ctx))
      = Some v ->
    v = resolveModuleType (checker ctx) p moduleName exportName (sourceFile ctx).

(** What an evaluation of [fromModule] answers from a stored outcome. *)
Definition answerFrom (checker : TypeChecker) (moduleName exportName : string)
    (type : Ty) (stored : option Ty) : Result bool :=
  match stored with
  | Some targetType => Ok (isTypeAssignableTo checker type targetType)
  | None => Throw (UNRESOLVED moduleName exportName)
  end.

(** What [t.object] does with one entry of its shape. *)
Definition checkEntry (type : Ty) (ctx : SchemaContext)
    (entry : string * TypeSchema) : M bool :=
  match getProperty type (fst entry) with
  | None => ret (_isOptional (snd entry))
  | Some propSymbol =>
      if negb (_isOptional (snd entry)) &&
         negb (bitand (flags propSymbol) TS_SYMBOL_FLAGS_OPTIONAL =? 0)
      then ret false
      else _accepts (snd entry) (getTypeOfSymbol (checker ctx) propSymbol) ctx
  end.

(** From every state of [Inv], the computation returns [b] and stays in
    [Inv]. *)
Definition Decides {A} (Inv : State -> Prop) (m : M A) (b : A) : Prop :=
  forall st, Inv st -> exists st', m st = (Ok b, st') /\ Inv st'.

(** The candidates the union algorithm hands to the member schemas. *)
Definition unionParts (c : Ty) : list Ty :=
  if isUnion c then types c else [c].

(** Under [ctx], from every state of [Inv], schema [s] returns [b] on [c] and
    stays in [Inv]. *)
Definition Verdict (Inv : State -> Prop) (ctx : SchemaContext)
    (s : TypeSchema) (c : Ty) (b : bool) : Prop :=
  Decides Inv (_accepts s c ctx) b.

Definition Accepts Inv ctx s c : Prop := Verdict Inv ctx s c true.


(** The candidate is assignable to [null] or to [undefined]. *)
Definition nullOrUndefined (ctx : SchemaContext) (c : Ty) : bool :=
  isTypeAssignableTo (checker ctx) c (getNullType (checker ctx)) ||
  isTypeAssignableTo (checker ctx) c (getUndefinedType (checker ctx)).

(** The method [m], called on the object at [this] (which holds [s]), returns
    the address of a cell that did not exist, holding [f s], and leaves every
    existing cell as it was. *)
Definition allocatesFresh (m : nat -> H nat) (f : TypeSchema -> TypeSchema)
    (h : Heap) (this : nat) (s : TypeSchema) : Prop :=
  exists r h',
    m this h = Some (r, h') /\
    h !! r = None /\
    h' !! r = Some (f s) /\
    h' !! this = Some s /\
    forall a node, h !! a = Some node -> h' !! a = Some node.

(** Two property lookups that the object algorithm cannot tell apart:
    both absent, or both present with the same optional flag and type. *)
Definition sameProperty (ctx : SchemaContext) (p q : option Symbol) : Prop :=
  match p, q with
  | None, None => True
  | Some a, Some b =>
      Z.testbit (flags a) 24 = Z.testbit (flags b) 24 /\
      getTypeOfSymbol (checker ctx) a = getTypeOfSymbol (checker ctx) b
  | _, _ => False
  end.

(** [c'] is [c] with one more property, named [extra]. *)
Definition extendsWith (ctx : SchemaContext) (c c' : Ty) (extra : string)
    : Prop :=
  getProperty c extra = None /\
  is_Some (getProperty c' extra) /\
  forall key, key <> extra ->
    sameProperty ctx (getProperty c key) (getProperty c' key).

(** The computation returns the same boolean from every state and leaves the
    state as it is: it raises nothing and does not touch the cache. *)
Definition Quiet (m : M bool) : Prop :=
  exists b, forall st, m st = (Ok b, st).

(** A schema whose predicate is quiet on every candidate, in every context. *)
Definition Pure (s : TypeSchema) : Prop :=
  forall c ctx, Quiet (_accepts s c ctx).

(** Two property lookups that agree on presence and on the type of the
    property; the symbols may differ in their flags. *)
Definition samePropertyType (ctx : SchemaContext) (p q : option Symbol)
    : Prop :=
  match p, q with
  | None, None => True
  | Some a, Some b =>
      getTypeOfSymbol (checker ctx) a = getTypeOfSymbol (checker ctx) b
  | _, _ => False
  end.

(** From every state of [Inv], the computation raises [message] and stays in
    [Inv]. *)
Definition Throws {A} (Inv : State -> Prop) (m : M A) (message : string)
    : Prop :=
  forall st, Inv st -> exists st', m st = (Throw message, st') /\ Inv st'.

(** Under [ctx], from every state of [Inv], schema [s] raises [message] on
    [c]. *)
Definition Raises (Inv : State -> Prop) (ctx : SchemaContext)
    (s : TypeSchema) (c : Ty) (message : string) : Prop :=
  Throws Inv (_accepts s c ctx) message.

End Notions.

(** ** A small host, for concrete evaluations *)

(** The types, symbols and modules of a small program, as the compiler would
    report them under [strict]:
<<
  // node_modules/fake-lib/index.d.ts
  export declare class Gadget { id: number }
  // test.ts
  declare const point: { x: number; y: number };
  declare const pointOptY: { x: number; y?: number };
  declare const labelled: { x: number; y: number; label: string };
  declare const onlyX: { x: number };
  declare const pointUndefY: { x: number; y: number | undefined };
  declare const gadget: Gadget;
>>
    together with the primitive types and a few unions of them. *)
Module Toy.

Inductive ToyTy : Type :=
  | TNumber | TString | TBoolean | TTrue | TFalse | TVoid | TUndefined | TNull
  | TNumOrNull | TNumOrUndef | TNumOrNullOrUndef | TStrOrNum | TStrOrNumOrBool
  | TPoint | TPointOptY | TLabelled | TOnlyX | TGadget | TPointUndefY.

#[global] Instance ToyTy_eq_dec : EqDecision ToyTy.
Proof. solve_decision. Defined.

Record ToySymbol : Type := mkSymbol {
  symName : string;
  symFlagsOf : Z;
  symType : ToyTy;
  symDeclared : ToyTy;
  symExportNames : list (string * ToyTy)
}.

(** The exports of a module symbol; [SymbolFlags.Class] is 32. *)
Definition symExports (s : ToySymbol) : list ToySymbol :=
  map (fun e => mkSymbol (fst e) 32 (snd e) (snd e) []) (symExportNames s).

(** [SymbolFlags.Property] is 4, [SymbolFlags.Optional] is [1 << 24]. *)
Definition property (name : string) (ty : ToyTy) : ToySymbol :=
  mkSymbol name 4 ty ty [].
Definition optionalProperty (name : string) (ty : ToyTy) : ToySymbol :=
  mkSymbol name (4 + 16777216) ty ty [].

Definition properties (ty : ToyTy) : list ToySymbol :=
  match ty with
  | TPoint => [property "x" TNumber; property "y" TNumber]
  | TPointOptY => [property "x" TNumber; optionalProperty "y" TNumOrUndef]
  | TLabelled =>
      [property "x" TNumber; property "y" TNumber; property "label" TString]
  | TOnlyX => [property "x" TNumber]
  | TPointUndefY => [property "x" TNumber; property "y" TNumOrUndef]
  | TGadget => [property "id" TNumber]
  | _ => []
  end.

Definition constituents (ty : ToyTy) : list ToyTy :=
  match ty with
  | TBoolean => [TFalse; TTrue]
  | TNumOrNull => [TNull; TNumber]
  | TNumOrUndef => [TUndefined; TNumber]
  | TNumOrNullOrUndef => [TUndefined; TNull; TNumber]
  | TStrOrNum => [TString; TNumber]
  | TStrOrNumOrBool => [TString; TNumber; TFalse; TTrue]
  | _ => []
  end.

Definition toyIsUnion (ty : ToyTy) : bool :=
  match constituents ty with [] => false | _ => true end.

(** Assignability between types that are not unions. *)
Definition assignableBase (a b : ToyTy) : bool :=
  bool_decide (a = b) ||
  match a, b with
  | TUndefined, TVoid => true
  | TLabelled, (TPoint | TPointOptY | TOnlyX | TPointUndefY) => true
  | TPoint, (TPointOptY | TOnlyX | TPointUndefY) => true
  | TPointOptY, TOnlyX => true
  | TPointUndefY, (TPointOptY | TOnlyX) => true
  | _, _ => false
  end.

Definition assignable (a b : ToyTy) : bool :=
  let parts ty := if toyIsUnion ty then constituents ty else [ty] in
  forallb (fun x => existsb (assignableBase x) (parts b)) (parts a).

Record ToySourceFile : Type := mkSourceFile {
  sfFileName : string;
  sfModule : option ToySymbol
}.

Record ToyProgram : Type := mkProgram {
  currentDirectory : string;
  sourceFiles : list ToySourceFile
}.

Definition fakeLibModule : ToySymbol :=
  mkSymbol "/node_modules/fake-lib/index" 512 TGadget TGadget
    [("Gadget", TGadget)].

Definition fakeLibFile : ToySourceFile :=
  mkSourceFile "/node_modules/fake-lib/index.d.ts" (Some fakeLibModule).

Definition testFile : ToySourceFile := mkSourceFile "/test.ts" None.

(** The program of the listing above, and one that does not contain the
    package. *)
Definition programWithLib : ToyProgram := mkProgram "/" [fakeLibFile; testFile].
Definition programWithoutLib : ToyProgram := mkProgram "/" [testFile].

(** The file system holds the package [fake-lib] and nothing else. *)
Definition toyResolveModuleName (moduleName containingFile : string)
    (options : unit) : option string :=
  if String.eqb moduleName "fake-lib"
  then Some "/node_modules/fake-lib/index.d.ts" else None.

#[global] Instance toyHost : TsHost := {|
  Ty := ToyTy;
  Symbol := ToySymbol;
  SourceFile := ToySourceFile;
  Program := ToyProgram;
  TypeChecker := nat;
  CompilerOptions := unit;
  getProperty ty key :=
    find (fun s => String.eqb (symName s) key) (properties ty);
  getNumberIndexType _ := None;
  isUnion := toyIsUnion;
  types := constituents;
  flags := symFlagsOf;
  getName := symName;
  fileName := sfFileName;
  getCompilerOptions _ := tt;
  getCurrentDirectory := currentDirectory;
  getSourceFile p name :=
    find (fun f => String.eqb (sfFileName f) name) (sourceFiles p);
  isTypeAssignableTo _ := assignable;
  getNumberType _ := TNumber;
  getStringType _ := TString;
  getBooleanType _ := TBoolean;
  getVoidType _ := TVoid;
  getUndefinedType _ := TUndefined;
  getNullType _ := TNull;
  getTypeOfSymbol _ := symType;
  getSymbolAtLocation _ := sfModule;
  getAmbientModules _ := [];
  getExportsOfModule _ := symExports;
  getDeclaredTypeOfSymbol _ := symDeclared;
  resolveModuleName := toyResolveModuleName
|}.

(** The state of a freshly loaded [index.ts]. *)
Definition fresh : State := mkState ∅ 0.

(** Contexts: a checker alone, with a program, and with a program and the
    file under analysis. *)
Definition ctxChecker : SchemaContext := mkContext 0%nat None None.
Definition ctxProgram : SchemaContext :=
  mkContext 0%nat (Some programWithLib) None.
Definition ctxFile : SchemaContext :=
  mkContext 0%nat (Some programWithLib) (Some testFile).
Definition ctxWithoutLib : SchemaContext :=
  mkContext 1%nat (Some programWithoutLib) None.

End Toy.

(** * Properties *)

(** ** Arithmetic of the optional flag *)

Lemma toInt32_testbit (z n : Z) :
  0 <= n < 32 -> Z.testbit (toInt32 z) n = Z.testbit z n.
Proof.
  intros Hn. unfold toInt32.
  rewrite <- (Z.mod_pow2_bits_low ((z + 2 ^ 31) mod 2 ^ 32 - 2 ^ 31) 32 n) by lia.
  rewrite Zminus_mod_idemp_l.
  replace (z + 2 ^ 31 - 2 ^ 31) with z by lia.
  apply Z.mod_pow2_bits_low. lia.
Qed.

Lemma land_pow2 (x n : Z) :
  0 <= n -> Z.land x (2 ^ n) = if Z.testbit x n then 2 ^ n else 0.
Proof.
  intros Hn. apply Z.bits_inj'. intros m Hm.
  rewrite Z.land_spec, Z.pow2_bits_eqb by lia.
  destruct (Z.eqb_spec n m) as [->|Hne].
  - destruct (Z.testbit x m) eqn:E; simpl.
    + rewrite Z.pow2_bits_true; [reflexivity | lia].
    + rewrite Z.bits_0. reflexivity.
  - rewrite andb_false_r.
    destruct (Z.testbit x n).
    + rewrite Z.pow2_bits_false; [reflexivity | lia].
    + rewrite Z.bits_0. reflexivity.
Qed.

(** The test [(propSymbol.flags & TS_SYMBOL_FLAGS_OPTIONAL) !== 0] reads bit 24
    of the flags. *)
Lemma optional_flag_test (f : Z) :
  negb (bitand f TS_SYMBOL_FLAGS_OPTIONAL =? 0) = Z.testbit f 24.
Proof.
  unfold bitand.
  replace (toInt32 TS_SYMBOL_FLAGS_OPTIONAL) with (2 ^ 24) by reflexivity.
  rewrite land_pow2 by lia.
  rewrite toInt32_testbit by lia.
  destruct (Z.testbit f 24); reflexivity.
Qed.

(** ** Cache keys are written without collision *)

Lemma append_assoc (a b c : string) : ((a ++ b) ++ c = a ++ (b ++ c))%string.
Proof.
  induction a as [|x a IH]; [reflexivity|].
  change (String x ((a ++ b) ++ c) = String x (a ++ (b ++ c)))%string.
  by f_equal.
Qed.

Lemma jsonUnquote_escape (c : ascii) (s : string) :
  jsonUnquote (jsonEscape c ++ s) =
  match jsonUnquote s with
  | Some (d, rest) => Some (String c d, rest)
  | None => None
  end.
Proof.
  destruct c as [[] [] [] [] [] [] [] []]; reflexivity.
Qed.

Lemma jsonUnquote_escapeAll (s rest : string) :
  jsonUnquote (jsonEscapeAll s ++ dquote ++ rest) = Some (s, rest).
Proof.
  induction s as [|c s IH]; [reflexivity|].
  change (jsonEscapeAll (String c s))
    with (jsonEscape c ++ jsonEscapeAll s)%string.
  rewrite append_assoc, jsonUnquote_escape.
  by rewrite IH.
Qed.

Lemma jsonString_inj_prefix (a b x y : string) :
  (jsonString a ++ x = jsonString b ++ y)%string -> a = b /\ x = y.
Proof.
  unfold jsonString. rewrite !append_assoc.
  change (String "034" (jsonEscapeAll a ++ dquote ++ x)
          = String "034" (jsonEscapeAll b ++ dquote ++ y) -> a = b /\ x = y)%string.
  intros [= Heq].
  apply (f_equal jsonUnquote) in Heq.
  rewrite !jsonUnquote_escapeAll in Heq. by injection Heq.
Qed.

(** [JSON.stringify] writes distinct triples as distinct strings. *)
Lemma JSON_stringify_inj m e f m' e' f' :
  JSON_stringify m e f = JSON_stringify m' e' f' ->
  m = m' /\ e = e' /\ f = f'.
Proof.
  unfold JSON_stringify. intros Heq.
  apply String.app_inj in Heq.
  apply jsonString_inj_prefix in Heq as [-> Heq].
  apply String.app_inj in Heq.
  apply jsonString_inj_prefix in Heq as [-> Heq].
  apply String.app_inj in Heq.
  split; [done|]. split; [done|].
  destruct f as [f|], f' as [f'|]; [| |done..].
  - apply jsonString_inj_prefix in Heq as [-> _]. done.
  - vm_compute in Heq. discriminate.
Qed.

(** ** Iteration *)

Section IterationFacts.
Context `{host : TsHost}.

Lemma every_cons {A} (f : A -> M bool) x l st :
  every f (x :: l) st =
  match f x st with
  | (Ok true, st') => every f l st'
  | (Ok false, st') => (Ok false, st')
  | (Throw e, st') => (Throw e, st')
  end.
Proof.
  simpl. unfold bind. destruct (f x st) as [[[|]|e] st']; reflexivity.
Qed.

Lemma some_cons {A} (f : A -> M bool) x l st :
  some f (x :: l) st =
  match f x st with
  | (Ok true, st') => (Ok true, st')
  | (Ok false, st') => some f l st'
  | (Throw e, st') => (Throw e, st')
  end.
Proof.
  simpl. unfold bind. destruct (f x st) as [[[|]|e] st']; reflexivity.
Qed.

(** Two predicates that agree on the elements of a list are iterated alike. *)
Lemma every_ext {A} (f g : A -> M bool) l :
  (forall x, x ∈ l -> f x = g x) -> every f l = every g l.
Proof.
  induction l as [|x l IH]; intros Hfg; [reflexivity|].
  simpl. rewrite (Hfg x) by left. f_equal.
  rewrite IH; [reflexivity|]. intros y Hy. apply Hfg. by right.
Qed.



End IterationFacts.

(** ** Object schemas *)

Section ObjectFacts.
Context `{host : TsHost}.

Lemma object_unfold shape type ctx :
  _accepts (t.object shape) type ctx = every (checkEntry type ctx) shape.
Proof. reflexivity. Qed.





End ObjectFacts.



(** ** Union and intersection schemas *)

Section UnionFacts.
Context `{host : TsHost}.
Context (Inv : State -> Prop).

Lemma Decides_ret {A} (a : A) : Decides Inv (ret a) a.
Proof. intros st Hst. by exists st. Qed.

Lemma Decides_unique {A} (m : M A) (a b : A) st :
  Inv st -> Decides Inv m a -> Decides Inv m b -> a = b.
Proof.
  intros Hst Ha Hb.
  destruct (Ha st Hst) as (sa & Ea & _), (Hb st Hst) as (sb & Eb & _).
  congruence.
Qed.

(** [some] over predicates that all decide: the answer is [true] exactly when
    one of them decides [true]. *)
Lemma some_Decides {A} (f : A -> M bool) (l : list A) :
  (forall x, x ∈ l -> exists b, Decides Inv (f x) b) ->
  exists b, Decides Inv (some f l) b /\
    (b = true -> exists x, x ∈ l /\ Decides Inv (f x) true) /\
    (forall st, Inv st ->
       (exists x, x ∈ l /\ Decides Inv (f x) true) -> b = true).
Proof.
  induction l as [|x l IH]; intros Hdec.
  - exists false. split; [apply Decides_ret|]. split; [discriminate|].
    intros st _ (x & Hx & _). by apply elem_of_nil in Hx.
  - destruct (Hdec x ltac:(left)) as [bx Hbx].
    destruct IH as (bl & Hbl & Hl1 & Hl2).
    { intros y Hy. apply Hdec. by right. }
    destruct bx.
    + exists true. split; [|split]; [|by exists x; split; [left|]|done].
      intros st Hst. rewrite some_cons.
      destruct (Hbx st Hst) as (st' & -> & Hst'). by exists st'.
    + exists bl. split; [|split].
      * intros st Hst. rewrite some_cons.
        destruct (Hbx st Hst) as (st' & -> & Hst'). by apply Hbl.
      * intros Hb. destruct (Hl1 Hb) as (y & Hy & Hyt).
        exists y. split; [by right|done].
      * intros st Hst (y & Hy & Hyt).
        apply elem_of_cons in Hy as [->|Hy].
        -- by pose proof (Decides_unique (f x) false true st Hst Hbx Hyt).
        -- apply (Hl2 st Hst). by exists y.
Qed.

(** [every], likewise: [true] exactly when all of them decide [true]. *)
Lemma every_Decides {A} (f : A -> M bool) (l : list A) :
  (forall x, x ∈ l -> exists b, Decides Inv (f x) b) ->
  exists b, Decides Inv (every f l) b /\
    (b = true -> forall x, x ∈ l -> Decides Inv (f x) true) /\
    (forall st, Inv st ->
       (forall x, x ∈ l -> Decides Inv (f x) true) -> b = true).
Proof.
  induction l as [|x l IH]; intros Hdec.
  - exists true. split; [apply Decides_ret|]. split; [|done].
    intros _ x Hx. by apply elem_of_nil in Hx.
  - destruct (Hdec x ltac:(left)) as [bx Hbx].
    destruct IH as (bl & Hbl & Hl1 & Hl2).
    { intros y Hy. apply Hdec. by right. }
    destruct bx.
    + exists bl. split; [|split].
      * intros st Hst. rewrite every_cons.
        destruct (Hbx st Hst) as (st' & -> & Hst'). by apply Hbl.
      * intros Hb y Hy. apply elem_of_cons in Hy as [->|Hy]; [done|].
        by apply Hl1.
      * intros st Hst Hall. apply (Hl2 st Hst).
        intros y Hy. apply Hall. by right.
    + exists false. split; [|split]; [|discriminate|].
      * intros st Hst. rewrite every_cons.
        destruct (Hbx st Hst) as (st' & -> & Hst'). by exists st'.
      * intros st Hst Hall.
        apply (Decides_unique (f x) false true st); [done..|].
        apply Hall. by left.
Qed.

(** C2 (amended).  When every member schema returns a boolean on the
    candidates handed to it (it raises no error there): a union schema
    returns, and it returns [true] iff every constituent of a union candidate
    is accepted by at least one member, respectively iff at least one member
    accepts a candidate that is not a union. *)
Theorem union_accepts_iff (ctx : SchemaContext) (members : list TypeSchema)
    (c : Ty) :
  (forall m c', m ∈ members -> c' ∈ unionParts c ->
     exists b, Verdict Inv ctx m c' b) ->
  forall st, Inv st ->
  exists b st',
    _accepts (t.union members) c ctx st = (Ok b, st') /\ Inv st' /\
    (b = true <->
     if isUnion c
     then forall ci, ci ∈ types c ->
            exists m, m ∈ members /\ Accepts Inv ctx m ci
     else exists m, m ∈ members /\ Accepts Inv ctx m c).
Proof.
  intros Hdec st Hst. unfold unionParts in Hdec.
  change (_accepts (t.union members) c ctx) with
    (if isUnion c
     then every (fun member => some (fun m => _accepts m member ctx) members)
            (types c)
     else some (fun m => _accepts m c ctx) members).
  destruct (isUnion c).
  - destruct (every_Decides
                (fun member => some (fun m => _accepts m member ctx) members)
                (types c)) as (b & Hb & H1 & H2).
    { intros ci Hci.
      destruct (some_Decides (fun m => _accepts m ci ctx) members)
        as (bi & Hbi & _); [|by exists bi].
      intros m Hm. by apply Hdec. }
    destruct (Hb st Hst) as (st' & E & Hst').
    exists b, st'. split; [done|]. split; [done|]. split.
    + intros Hbt ci Hci. specialize (H1 Hbt ci Hci).
      destruct (some_Decides (fun m => _accepts m ci ctx) members)
        as (bi & Hbi & Hi1 & _).
      { intros m Hm. by apply Hdec. }
      apply Hi1. by apply (Decides_unique _ bi true st Hst Hbi H1).
    + intros Hall. apply (H2 st Hst). intros ci Hci.
      destruct (some_Decides (fun m => _accepts m ci ctx) members)
        as (bi & Hbi & _ & Hi2).
      { intros m Hm. by apply Hdec. }
      by rewrite (Hi2 st Hst (Hall ci Hci)) in Hbi.
  - destruct (some_Decides (fun m => _accepts m c ctx) members)
      as (b & Hb & H1 & H2).
    { intros m Hm. apply Hdec; [done|]. by left. }
    destruct (Hb st Hst) as (st' & E & Hst').
    exists b, st'. split; [done|]. split; [done|]. split; [done|].
    by apply (H2 st Hst).
Qed.

End UnionFacts.

(** [union(string, number)] against [string | number]. *)
Lemma union_accepts_iff_witness :
  exists b st',
    _accepts (host := Toy.toyHost) (t.union [t.string; t.number])
      Toy.TStrOrNum Toy.ctxChecker Toy.fresh = (Ok b, st') /\ True /\
    (b = true <->
     forall ci, ci ∈ [Toy.TString; Toy.TNumber] ->
       exists m, m ∈ [t.string; t.number] /\
         Accepts (fun _ => True) Toy.ctxChecker m ci).
Proof.
  apply (union_accepts_iff (host := Toy.toyHost) (fun _ => True)
           Toy.ctxChecker [t.string; t.number] Toy.TStrOrNum); [|exact I].
  intros m c' Hm _.
  apply elem_of_cons in Hm as [->|Hm];
    [|apply list_elem_of_singleton in Hm as ->];
    eexists; apply Decides_ret.
Defined.

(** C2 as stated fails when a member schema raises before an accepting one is
    reached: [union(fromModule("no-such-module", "Foo"), any)] against
    [string] throws, although [any] accepts [string]. *)
Lemma union_accepts_iff_counterexample :
  let members :=
    [t.fromModule (host := Toy.toyHost) "no-such-module" "Foo"; t.any] in
  let result :=
    fst (_accepts (t.union members) Toy.TString Toy.ctxProgram Toy.fresh) in
  isUnion Toy.TString = false /\
  (exists m, m ∈ members /\
     forall st, exists st',
       _accepts m Toy.TString Toy.ctxProgram st = (Ok true, st')) /\
  result = Throw (UNRESOLVED "no-such-module" "Foo") /\
  result <> Ok true.
Proof.
  cbv zeta. split; [reflexivity|]. split; [|split].
  - exists t.any. split; [right; left|]. intros st. by exists st.
  - vm_compute. reflexivity.
  - vm_compute. discriminate.
Qed.

(** ** Empty shapes and member lists *)

Section EmptyFacts.
Context `{host : TsHost}.

Lemma every_some_nil {A} (f : TypeSchema -> A -> M bool) (l : list A) st :
  l <> [] -> every (fun x => some (fun m => f m x) []) l st = (Ok false, st).
Proof. destruct l; [done|]. intros _. reflexivity. Qed.

(** C10.  An object schema with an empty shape and an intersection of no
    schemas accept every candidate; a union of no schemas rejects every
    candidate.  (A union type of the compiler has constituents, which is what
    the last part asks of a candidate that reports [isUnion].) *)
Theorem empty_object_intersection_union (c : Ty) (ctx : SchemaContext)
    (st : State) :
  _accepts (t.object []) c ctx st = (Ok true, st) /\
  _accepts (t.intersection []) c ctx st = (Ok true, st) /\
  ((isUnion c = true -> types c <> []) ->
   _accepts (t.union []) c ctx st = (Ok false, st)).
Proof.
  split; [reflexivity|]. split; [reflexivity|].
  intros Hne.
  change (_accepts (t.union []) c ctx st) with
    ((if isUnion c
      then every (fun member => some (fun m => _accepts m member ctx) [])
             (types c)
      else some (fun m => _accepts m c ctx) []) st).
  destruct (isUnion c); [|reflexivity].
  apply (every_some_nil (fun m member => _accepts m member ctx)). by apply Hne.
Qed.

End EmptyFacts.

(** [t.union()] against [string | number]. *)
Lemma empty_object_intersection_union_witness :
  _accepts (host := Toy.toyHost) (t.union []) Toy.TStrOrNum Toy.ctxChecker
    Toy.fresh = (Ok false, Toy.fresh).
Proof.
  apply (empty_object_intersection_union (host := Toy.toyHost) Toy.TStrOrNum
           Toy.ctxChecker Toy.fresh).
  intros _. discriminate.
Defined.

(** ** The optional flag of wrapped schemas *)

Section FlagFacts.
Context `{host : TsHost}.

(** C9.  [t.union], [t.intersection] and [.nullable()] return nodes that are
    not optional, whatever the flags of their arguments;
    [s.optional().nullable()] is not optional and [s.nullable().optional()]
    is.  As the only entry of a shape, the first rejects a candidate without
    the property and the second accepts it. *)
Theorem wrappers_drop_optional_flag (s : TypeSchema)
    (members : list TypeSchema) :
  _isOptional (t.union members) = false /\
  _isOptional (t.intersection members) = false /\
  _isOptional (nullable s) = false /\
  _isOptional (nullable (optional s)) = false /\
  _isOptional (optional (nullable s)) = true /\
  (forall key c ctx st, getProperty c key = None ->
     _accepts (t.object [(key, nullable (optional s))]) c ctx st
       = (Ok false, st) /\
     _accepts (t.object [(key, optional (nullable s))]) c ctx st
       = (Ok true, st)).
Proof.
  repeat (split; [reflexivity|]).
  intros key c ctx st Hget.
  rewrite !object_unfold, !every_cons. unfold checkEntry. simpl.
  rewrite Hget. split; reflexivity.
Qed.

End FlagFacts.

(** [{ y: number.optional().nullable() }] and
    [{ y: number.nullable().optional() }] against [{ x: number }]. *)
Lemma wrappers_drop_optional_flag_witness :
  _accepts (host := Toy.toyHost)
    (t.object [("y", nullable (optional t.number))])
    Toy.TOnlyX Toy.ctxChecker Toy.fresh = (Ok false, Toy.fresh) /\
  _accepts (host := Toy.toyHost)
    (t.object [("y", optional (nullable t.number))])
    Toy.TOnlyX Toy.ctxChecker Toy.fresh = (Ok true, Toy.fresh).
Proof.
  apply (wrappers_drop_optional_flag (host := Toy.toyHost) t.number []).
  reflexivity.
Defined.

(** ** The guards of [fromModule] *)

Section GuardFacts.
Context `{host : TsHost}.

(** C7.  Without a program in the context, evaluating a [fromModule] schema
    raises the missing-program error, whatever the specifier; past that guard,
    evaluating one whose specifier starts with [./] or [../] without a source
    file in the context raises the missing-source-file error.  Both leave the
    state as it was: the cache is not touched and [resolveModuleType] is not
    called. *)
Theorem fromModule_guards (moduleName exportName : string) (type : Ty)
    (ctx : SchemaContext) (st : State) :
  (program ctx = None ->
   _accepts (t.fromModule moduleName exportName) type ctx st
     = (Throw MISSING_PROGRAM, st)) /\
  (is_Some (program ctx) ->
   startsWith moduleName "./" = true \/ startsWith moduleName "../" = true ->
   sourceFile ctx = None ->
   _accepts (t.fromModule moduleName exportName) type ctx st
     = (Throw MISSING_SOURCE_FILE, st)) /\
  MISSING_PROGRAM <> MISSING_SOURCE_FILE.
Proof.
  split; [|split].
  - intros Hp. simpl. rewrite Hp. reflexivity.
  - intros [p Hp] Hrel Hsf. simpl. rewrite Hp, Hsf.
    assert (isRelative moduleName = true) as ->.
    { unfold isRelative. destruct Hrel as [-> | ->]; [done|].
      by rewrite orb_true_r. }
    reflexivity.
  - discriminate.
Qed.

End GuardFacts.

(** [fromModule("fake-lib", "Gadget")] with a checker alone, and
    [fromModule("./file-lib", "Widget")] with a program but no source file. *)
Lemma fromModule_guards_witness :
  _accepts (host := Toy.toyHost) (t.fromModule "fake-lib" "Gadget")
    Toy.TGadget Toy.ctxChecker Toy.fresh = (Throw MISSING_PROGRAM, Toy.fresh) /\
  _accepts (host := Toy.toyHost) (t.fromModule "./file-lib" "Widget")
    Toy.TGadget Toy.ctxProgram Toy.fresh
    = (Throw MISSING_SOURCE_FILE, Toy.fresh).
Proof.
  split.
  - apply (fromModule_guards (host := Toy.toyHost) "fake-lib" "Gadget"
             Toy.TGadget Toy.ctxChecker Toy.fresh). reflexivity.
  - apply (fromModule_guards (host := Toy.toyHost) "./file-lib" "Widget"
             Toy.TGadget Toy.ctxProgram Toy.fresh).
    + by eexists.
    + left. reflexivity.
    + reflexivity.
Defined.

(** ** The module resolution cache *)

Section CacheFacts.
Context `{host : TsHost}.

Lemma resolveModuleType_split ch p moduleName exportName sf :
  resolveModuleType ch p moduleName exportName sf =
  match moduleSymbolOf ch p moduleName sf with
  | None => None
  | Some m =>
      match find (fun s => String.eqb (getName s) exportName)
                 (getExportsOfModule ch m) with
      | None => None
      | Some exportSymbol => Some (getDeclaredTypeOfSymbol ch exportSymbol)
      end
  end.
Proof. reflexivity. Qed.

(** [resolveModuleType] returns [null] in exactly the two failure modes. *)
Lemma resolveModuleType_None ch p moduleName exportName sf :
  resolveModuleType ch p moduleName exportName sf = None <->
  noModuleMatched ch p moduleName sf \/
  exportNotFound ch p moduleName exportName sf.
Proof.
  rewrite resolveModuleType_split. unfold noModuleMatched, exportNotFound.
  destruct (moduleSymbolOf ch p moduleName sf) as [m|].
  - destruct (find _ (getExportsOfModule ch m)) eqn:E.
    + split; [discriminate|]. intros [?|(m' & [= <-] & ?)]; congruence.
    + split; [|done]. intros _. right. by exists m.
  - split; [by left|done].
Qed.

(** One evaluation of [fromModule] past its guards, by cases on the entry
    under its key. *)
Lemma fromModule_eval moduleName exportName type ctx p st :
  program ctx = Some p ->
  (isRelative moduleName = true -> is_Some (sourceFile ctx)) ->
  let ch := checker ctx in
  let key := cacheKey moduleName exportName (sourceFile ctx) in
  _accepts (t.fromModule moduleName exportName) type ctx st =
  match entry st ch key with
  | Some v => (answerFrom ch moduleName exportName type v, st)
  | None =>
      let r := resolveModuleType ch p moduleName exportName (sourceFile ctx) in
      (answerFrom ch moduleName exportName type r,
       mkState (<[ch := <[key := r]> (default ∅ (moduleTypeCache st !! ch))]>
                  (moduleTypeCache st))
               (S (resolutions st)))
  end.
Proof.
  intros Hp Hsf ch key. simpl. rewrite Hp.
  assert (isRelative moduleName &&
          negb (bool_decide (is_Some (sourceFile ctx))) = false) as ->.
  { destruct (isRelative moduleName); [|done].
    rewrite bool_decide_eq_true_2; [done|]. by apply Hsf. }
  unfold bind, getCache, entry. fold ch. fold key.
  destruct st as [cache n]. simpl.
  destruct (cache !! ch) as [map|] eqn:Hmap; simpl.
  - destruct (map !! key) as [v|] eqn:Hkey; simpl.
    + rewrite Hmap. simpl. rewrite Hkey. by destruct v.
    + rewrite Hmap. simpl. rewrite !lookup_insert_eq. simpl.
      rewrite lookup_insert_eq.
      by destruct (resolveModuleType ch p moduleName exportName _).
  - rewrite lookup_empty. simpl. unfold cacheSet. simpl.
    rewrite !lookup_insert_eq. simpl. rewrite insert_insert_eq.
    rewrite lookup_insert_eq.
    by destruct (resolveModuleType ch p moduleName exportName _).
Qed.

(** An evaluation of [fromModule] never changes or removes an entry. *)
Lemma fromModule_entriesKept moduleName exportName type ctx st :
  entriesKept st
    (snd (_accepts (t.fromModule moduleName exportName) type ctx st)).
Proof.
  destruct (program ctx) as [p|] eqn:Hp;
    [|by intros ch key v Hv; simpl; rewrite Hp].
  destruct (decide (isRelative moduleName = true -> is_Some (sourceFile ctx)))
    as [Hsf|Hsf].
  - rewrite (fromModule_eval _ _ _ _ p st Hp Hsf). cbv zeta.
    destruct (entry st (checker ctx) _) as [v|] eqn:He; [by intros ? ? ? ?|].
    intros ch key v Hv. unfold entry in *. simpl.
    destruct (decide (checker ctx = ch)) as [<-|Hne].
    + rewrite lookup_insert_eq. simpl.
      destruct (decide (cacheKey moduleName exportName (sourceFile ctx) = key))
        as [<-|Hk]; [congruence|].
      by rewrite lookup_insert_ne.
    + by rewrite lookup_insert_ne.
  - intros ch key v Hv. simpl. rewrite Hp.
    destruct (isRelative moduleName); [|by exfalso; apply Hsf].
    destruct (sourceFile ctx); [by exfalso; apply Hsf|]. done.
Qed.

(** An evaluation of [fromModule] leaves the entries under other keys as they
    were. *)
Lemma fromModule_other_entries moduleName exportName type ctx st ch key :
  (ch, key) <> (checker ctx, cacheKey moduleName exportName (sourceFile ctx)) ->
  entry (snd (_accepts (t.fromModule moduleName exportName) type ctx st)) ch key
  = entry st ch key.
Proof.
  intros Hne.
  destruct (program ctx) as [p|] eqn:Hp; [|by simpl; rewrite Hp].
  destruct (decide (isRelative moduleName = true -> is_Some (sourceFile ctx)))
    as [Hsf|Hsf].
  - rewrite (fromModule_eval _ _ _ _ p st Hp Hsf). cbv zeta.
    destruct (entry st (checker ctx) _) as [v|] eqn:He; [done|].
    unfold entry in *. simpl.
    destruct (decide (checker ctx = ch)) as [<-|Hch].
    + rewrite lookup_insert_eq. simpl.
      rewrite lookup_insert_ne; [done|]. congruence.
    + by rewrite lookup_insert_ne.
  - simpl. rewrite Hp.
    destruct (isRelative moduleName); [|by exfalso; apply Hsf].
    destruct (sourceFile ctx); [by exfalso; apply Hsf|]. done.
Qed.

(** Two evaluations use the same entry exactly when their composite keys are
    equal. *)
Lemma compositeKey_cacheKey ctx moduleName exportName ctx' moduleName'
    exportName' :
  compositeKey ctx moduleName exportName
  = compositeKey ctx' moduleName' exportName' <->
  (checker ctx, cacheKey moduleName exportName (sourceFile ctx))
  = (checker ctx', cacheKey moduleName' exportName' (sourceFile ctx')).
Proof.
  unfold compositeKey, cacheKey. split.
  - intros [= -> -> -> ->]. done.
  - intros Heq.
    pose proof (f_equal fst Heq) as Hch. pose proof (f_equal snd Heq) as Hkey.
    cbn [fst snd] in Hch, Hkey.
    apply JSON_stringify_inj in Hkey as (-> & -> & ->). by rewrite Hch.
Qed.

(** With a cache that agrees with the resolver, a module reference that
    resolves gives the verdict of the checker, and the cache stays in
    agreement: such schemas are members a union schema can be reasoned about
    with. *)
Lemma fromModule_Verdict moduleName exportName ctx p target c :
  program ctx = Some p ->
  (isRelative moduleName = true -> is_Some (sourceFile ctx)) ->
  resolveModuleType (checker ctx) p moduleName exportName (sourceFile ctx)
    = Some target ->
  Verdict (coherent ctx p) ctx (t.fromModule moduleName exportName) c
    (isTypeAssignableTo (checker ctx) c target).
Proof.
  intros Hp Hsf Hres st Hst.
  rewrite (fromModule_eval moduleName exportName c ctx p st Hp Hsf). cbv zeta.
  destruct (entry st (checker ctx) _) as [v|] eqn:He.
  - exists st. split; [|done].
    by rewrite (Hst moduleName exportName v He), Hres.
  - eexists. split; [by rewrite Hres|].
    intros moduleName' exportName' v. unfold entry. simpl.
    rewrite lookup_insert_eq. simpl.
    destruct (decide (cacheKey moduleName exportName (sourceFile ctx)
                      = cacheKey moduleName' exportName' (sourceFile ctx)))
      as [Heq|Hne].
    + rewrite <- Heq, lookup_insert_eq. intros [= <-].
      unfold cacheKey in Heq.
      by apply JSON_stringify_inj in Heq as (-> & -> & _).
    + rewrite lookup_insert_ne by done. apply Hst.
Qed.

End CacheFacts.

Section CacheTheorems.
Context `{host : TsHost}.

(** C4.  The cache is write-once per key.  For an evaluation of
    [fromModule(moduleName, exportName)] that reaches the cache under the key
    made of checker, specifier, export name and resolving file (or none):
    - no entry of the cache, under any key, is changed or removed, and an
      evaluation for another composite key leaves the entry of this key as it
      is;
    - when the key has no entry yet, the outcome of [resolveModuleType] is
      stored under it, after one call of [resolveModuleType], and answers
      this evaluation;
    - when the key has an entry, the evaluation answers from the stored
      outcome and leaves the state as it is: no call of [resolveModuleType],
      whatever the program of the context; a stored "not found" raises the
      unresolved-export error;
    - hence any later evaluation for the same key, on any candidate, answers
      from the outcome stored at the first one. *)
Theorem fromModule_cache_write_once (moduleName exportName : string)
    (type : Ty) (ctx : SchemaContext) (st : State) :
  reachesCache ctx moduleName ->
  let ch := checker ctx in
  let key := cacheKey moduleName exportName (sourceFile ctx) in
  let out := _accepts (t.fromModule moduleName exportName) type ctx st in
  entriesKept st (snd out) /\
  (entry st ch key = None ->
   exists p, program ctx = Some p /\
     let r := resolveModuleType ch p moduleName exportName (sourceFile ctx) in
     entry (snd out) ch key = Some r /\
     resolutions (snd out) = S (resolutions st) /\
     fst out = answerFrom ch moduleName exportName type r) /\
  (forall v, entry st ch key = Some v ->
     out = (answerFrom ch moduleName exportName type v, st)) /\
  (entry st ch key = Some None ->
     out = (Throw (UNRESOLVED moduleName exportName), st)) /\
  (forall type2 ctx2 st2,
     checker ctx2 = ch ->
     reachesCache ctx2 moduleName ->
     cacheKey moduleName exportName (sourceFile ctx2) = key ->
     entriesKept (snd out) st2 ->
     exists v, entry (snd out) ch key = Some v /\
       _accepts (t.fromModule moduleName exportName) type2 ctx2 st2
       = (answerFrom ch moduleName exportName type2 v, st2)) /\
  (forall moduleName' exportName' type' ctx' st',
     compositeKey ctx' moduleName' exportName'
     <> compositeKey ctx moduleName exportName ->
     entry (snd (_accepts (t.fromModule moduleName' exportName') type' ctx' st'))
       ch key
     = entry st' ch key).
Proof.
  intros [[p Hp] Hsf] ch key out.
  pose proof (fromModule_eval moduleName exportName type ctx p st Hp Hsf)
    as Heval. cbv zeta in Heval. fold ch key out in Heval.
  assert (entry st ch key = None ->
          entry (snd out) ch key
          = Some (resolveModuleType ch p moduleName exportName (sourceFile ctx)))
    as Hstored.
  { intros Hnone. rewrite Heval, Hnone. unfold entry. simpl.
    rewrite lookup_insert_eq. simpl. by rewrite lookup_insert_eq. }
  split; [apply fromModule_entriesKept|].
  split; [|split; [|split; [|split]]].
  - intros Hnone. exists p. split; [done|]. cbv zeta.
    split; [by apply Hstored|].
    rewrite Heval, Hnone. by split.
  - intros v Hv. by rewrite Heval, Hv.
  - intros Hv. by rewrite Heval, Hv.
  - intros type2 ctx2 st2 Hch [[p2 Hp2] Hsf2] Hkey Hkept.
    assert (exists v, entry (snd out) ch key = Some v) as [v Hv].
    { destruct (entry st ch key) as [v|] eqn:He.
      - exists v. by rewrite Heval.
      - eexists. by apply Hstored. }
    exists v. split; [done|].
    rewrite (fromModule_eval moduleName exportName type2 ctx2 p2 st2 Hp2 Hsf2).
    cbv zeta. rewrite Hch, Hkey. by rewrite (Hkept ch key v Hv).
  - intros moduleName' exportName' type' ctx' st' Hother.
    apply fromModule_other_entries. intros Heq. apply Hother.
    by apply compositeKey_cacheKey.
Qed.

(** C3 (amended).  An evaluation of [fromModule] that finds no entry under
    its key and whose resolution fails raises the unresolved-export error, and
    it is the same error in both failure modes: the message names the export
    and the module specifier and does not tell "no module matched the
    specifier" from "the export was not found in the resolved module". *)
Theorem fromModule_unresolved_error (moduleName exportName : string)
    (type : Ty) (ctx : SchemaContext) (p : Program) (st : State) :
  program ctx = Some p ->
  (isRelative moduleName = true -> is_Some (sourceFile ctx)) ->
  entry st (checker ctx) (cacheKey moduleName exportName (sourceFile ctx))
    = None ->
  let result :=
    fst (_accepts (t.fromModule moduleName exportName) type ctx st) in
  (noModuleMatched (checker ctx) p moduleName (sourceFile ctx) ->
   result = Throw (UNRESOLVED moduleName exportName)) /\
  (exportNotFound (checker ctx) p moduleName exportName (sourceFile ctx) ->
   result = Throw (UNRESOLVED moduleName exportName)).
Proof.
  intros Hp Hsf Hnone result. unfold result.
  rewrite (fromModule_eval moduleName exportName type ctx p st Hp Hsf).
  cbv zeta. rewrite Hnone. simpl.
  split; intros Hfail.
  - assert (resolveModuleType (checker ctx) p moduleName exportName
              (sourceFile ctx) = None) as ->; [|done].
    apply resolveModuleType_None. by left.
  - assert (resolveModuleType (checker ctx) p moduleName exportName
              (sourceFile ctx) = None) as ->; [|done].
    apply resolveModuleType_None. by right.
Qed.

End CacheTheorems.

(** [fromModule("fake-lib", "Gadget")] evaluated on [gadget] from the fresh
    state, then on a [string]: the first evaluation resolves and stores
    [Gadget], the second answers from the entry without resolving. *)
Lemma fromModule_cache_write_once_witness :
  let s := t.fromModule (host := Toy.toyHost) "fake-lib" "Gadget" in
  let out := _accepts s Toy.TGadget Toy.ctxProgram Toy.fresh in
  entry (snd out) 0%nat (cacheKey "fake-lib" "Gadget" None)
    = Some (Some Toy.TGadget) /\
  resolutions (snd out) = 1%nat /\
  _accepts s Toy.TString Toy.ctxProgram (snd out) = (Ok false, snd out).
Proof.
  intros s out. subst s.
  assert (reachesCache Toy.ctxProgram "fake-lib") as Hreach.
  { split; [by eexists|]. discriminate. }
  destruct (fromModule_cache_write_once (host := Toy.toyHost)
              "fake-lib" "Gadget" Toy.TGadget Toy.ctxProgram Toy.fresh Hreach)
    as (_ & Hfirst & _ & _ & Hlater & _).
  destruct (Hfirst eq_refl) as (p & [= <-] & Hentry & Hcount & _).
  split; [exact Hentry|]. split; [exact Hcount|].
  destruct (Hlater Toy.TString Toy.ctxProgram (snd out) eq_refl Hreach eq_refl)
    as (v & Hv & Hsecond).
  { by intros ch key v Hv. }
  rewrite Hsecond.
  pose proof (eq_trans (eq_sym Hv) Hentry) as [= ->]. reflexivity.
Defined.

(** The two failure modes, for the same specifier and export name: a program
    that contains [fake-lib], which has no export [DoesNotExist], and a
    program without the package. *)
Lemma fromModule_unresolved_error_witness :
  fst (_accepts (host := Toy.toyHost) (t.fromModule "fake-lib" "DoesNotExist")
         Toy.TGadget Toy.ctxWithoutLib Toy.fresh)
    = Throw (UNRESOLVED "fake-lib" "DoesNotExist") /\
  fst (_accepts (host := Toy.toyHost) (t.fromModule "fake-lib" "DoesNotExist")
         Toy.TGadget Toy.ctxProgram Toy.fresh)
    = Throw (UNRESOLVED "fake-lib" "DoesNotExist").
Proof.
  split.
  - refine (proj1 (fromModule_unresolved_error (host := Toy.toyHost)
                     "fake-lib" "DoesNotExist" Toy.TGadget Toy.ctxWithoutLib
                     Toy.programWithoutLib Toy.fresh eq_refl _ eq_refl) _).
    + discriminate.
    + reflexivity.
  - refine (proj2 (fromModule_unresolved_error (host := Toy.toyHost)
                     "fake-lib" "DoesNotExist" Toy.TGadget Toy.ctxProgram
                     Toy.programWithLib Toy.fresh eq_refl _ eq_refl) _).
    + discriminate.
    + exists Toy.fakeLibModule. split; reflexivity.
Defined.

(** C3 as stated fails: the error raised when the module resolved but lacks
    the export is equal to the error raised when no module matched. *)
Lemma fromModule_unresolved_error_counterexample :
  exportNotFound (host := Toy.toyHost) 0%nat Toy.programWithLib
    "fake-lib" "DoesNotExist" None /\
  noModuleMatched (host := Toy.toyHost) 1%nat Toy.programWithoutLib
    "fake-lib" None /\
  fst (_accepts (host := Toy.toyHost) (t.fromModule "fake-lib" "DoesNotExist")
         Toy.TGadget Toy.ctxProgram Toy.fresh)
  = fst (_accepts (host := Toy.toyHost)
           (t.fromModule "fake-lib" "DoesNotExist")
           Toy.TGadget Toy.ctxWithoutLib Toy.fresh).
Proof.
  split; [|split].
  - exists Toy.fakeLibModule. split; reflexivity.
  - reflexivity.
  - vm_compute. reflexivity.
Qed.

(** ** Extra properties *)

Section ExtraPropertyFacts.
Context `{host : TsHost}.

Lemma checkEntry_sameProperty c c' ctx e :
  sameProperty ctx (getProperty c (fst e)) (getProperty c' (fst e)) ->
  checkEntry c' ctx e = checkEntry c ctx e.
Proof.
  unfold sameProperty, checkEntry.
  destruct (getProperty c (fst e)) as [a|], (getProperty c' (fst e)) as [b|];
    try done.
  intros [Hflag Hty]. by rewrite !optional_flag_test, Hflag, Hty.
Qed.

(** The outcome of an object schema depends on the candidate through the
    properties named in the shape only. *)
Lemma object_same_properties shape c c' ctx :
  (forall e, e ∈ shape ->
     sameProperty ctx (getProperty c (fst e)) (getProperty c' (fst e))) ->
  _accepts (t.object shape) c' ctx = _accepts (t.object shape) c ctx.
Proof.
  intros Hsame. rewrite !object_unfold. apply every_ext.
  intros e He. by apply checkEntry_sameProperty, Hsame.
Qed.

(** C5.  Adding to an accepted candidate a property whose key is not in the
    shape leaves the object schema accepting: properties beyond the declared
    shape are not looked at. *)
Theorem object_accepts_extra_property
    (shape : list (string * TypeSchema)) (c c' : Ty) (extra : string)
    (ctx : SchemaContext) (st : State) :
  (forall e, e ∈ shape -> fst e <> extra) ->
  extendsWith ctx c c' extra ->
  fst (_accepts (t.object shape) c ctx st) = Ok true ->
  fst (_accepts (t.object shape) c' ctx st) = Ok true.
Proof.
  intros Hshape (_ & _ & Hsame) Hacc.
  rewrite (object_same_properties shape c c' ctx); [done|].
  intros e He. apply Hsame. by apply Hshape.
Qed.

End ExtraPropertyFacts.

(** [{ x: number, y: number }] against [{ x; y }] and against
    [{ x; y; label }]. *)
Lemma object_accepts_extra_property_witness :
  fst (_accepts (host := Toy.toyHost)
         (t.object [("x", t.number); ("y", t.number)])
         Toy.TLabelled Toy.ctxChecker Toy.fresh) = Ok true.
Proof.
  apply (object_accepts_extra_property (host := Toy.toyHost)
           [("x", t.number); ("y", t.number)] Toy.TPoint Toy.TLabelled
           "label" Toy.ctxChecker Toy.fresh).
  - intros e He.
    apply elem_of_cons in He as [->|He];
      [|apply list_elem_of_singleton in He as ->]; discriminate.
  - split; [reflexivity|]. split; [by eexists|].
    intros key Hkey. cbn -[String.eqb].
    destruct (String.eqb_spec "x" key) as [<-|Hx]; [by split|].
    destruct (String.eqb_spec "y" key) as [<-|Hy]; [by split|].
    destruct (String.eqb_spec "label" key) as [<-|Hl]; done.
  - reflexivity.
Defined.

(** ** Nullish schemas *)

Section NullishFacts.
Context `{host : TsHost}.

(** [s.nullish()] on a candidate that is not a union: [s] first, then
    [null], then [undefined]. *)
Lemma nullish_not_union s c ctx st :
  isUnion c = false ->
  _accepts (nullish s) c ctx st =
  match _accepts s c ctx st with
  | (Ok true, st') => (Ok true, st')
  | (Ok false, st') => (Ok (nullOrUndefined ctx c), st')
  | (Throw e, st') => (Throw e, st')
  end.
Proof.
  intros Hnu.
  change (_accepts (nullish s) c ctx st) with
    ((if isUnion c
      then every (fun member =>
                    some (fun m => _accepts m member ctx)
                      [nullable s; t.undefined]) (types c)
      else some (fun m => _accepts m c ctx) [nullable s; t.undefined]) st).
  rewrite Hnu, some_cons.
  change (_accepts (nullable s) c ctx st) with
    ((if isUnion c
      then every (fun member =>
                    some (fun m => _accepts m member ctx) [s; t.null])
             (types c)
      else some (fun m => _accepts m c ctx) [s; t.null]) st).
  rewrite Hnu, some_cons.
  destruct (_accepts s c ctx st) as [[[|]|e] st']; try reflexivity.
  unfold nullOrUndefined. simpl. unfold bind, ret.
  destruct (isTypeAssignableTo (checker ctx) c (getNullType (checker ctx)));
    [reflexivity|].
  simpl. by destruct (isTypeAssignableTo (checker ctx) c _).
Qed.

(** What [s.nullish()] does with one constituent of a union candidate. *)
Lemma nullish_constituent Inv s ci ctx b :
  isUnion ci = false ->
  Verdict Inv ctx s ci b ->
  Decides Inv (some (fun m => _accepts m ci ctx) [nullable s; t.undefined])
    (b || nullOrUndefined ctx ci).
Proof.
  intros Hnu Hb st Hst.
  pose proof (nullish_not_union s ci ctx st Hnu) as Heq.
  change (_accepts (nullish s) ci ctx st) with
    ((if isUnion ci
      then every (fun member =>
                    some (fun m => _accepts m member ctx)
                      [nullable s; t.undefined]) (types ci)
      else some (fun m => _accepts m ci ctx) [nullable s; t.undefined]) st)
    in Heq.
  rewrite Hnu in Heq. rewrite Heq.
  destruct (Hb st Hst) as (st' & -> & Hst').
  exists st'. by destruct b.
Qed.

(** After elements on which the predicate decides [true], [every] goes on
    with the next one: a [false] there is the answer, an exception there
    propagates; the elements that follow are not looked at. *)
Lemma every_stops {A} (Inv : State -> Prop) (f : A -> M bool) pre x post :
  (forall y, y ∈ pre -> Decides Inv (f y) true) ->
  (Decides Inv (f x) false ->
   Decides Inv (every f (pre ++ x :: post)%list) false) /\
  (forall message, Throws Inv (f x) message ->
   Throws Inv (every f (pre ++ x :: post)%list) message).
Proof.
  intros Hpre. induction pre as [|y pre IH]; simpl app.
  - split.
    + intros Hx st Hst. rewrite every_cons.
      destruct (Hx st Hst) as (st' & -> & Hst'). by exists st'.
    + intros message Hx st Hst. rewrite every_cons.
      destruct (Hx st Hst) as (st' & -> & Hst'). by exists st'.
  - destruct IH as [IHf IHt]. { intros z Hz. apply Hpre. by right. }
    split.
    + intros Hx st Hst. rewrite every_cons.
      destruct (Hpre y ltac:(left) st Hst) as (st' & -> & Hst').
      by apply IHf.
    + intros message Hx st Hst. rewrite every_cons.
      destruct (Hpre y ltac:(left) st Hst) as (st' & -> & Hst').
      by apply IHt.
Qed.

(** What [s.nullish()] does with a constituent on which [s] raises. *)
Lemma nullish_constituent_raises Inv s ci ctx message :
  isUnion ci = false ->
  Raises Inv ctx s ci message ->
  Throws Inv (some (fun m => _accepts m ci ctx) [nullable s; t.undefined])
    message.
Proof.
  intros Hnu Hraise st Hst.
  pose proof (nullish_not_union s ci ctx st Hnu) as Heq.
  change (_accepts (nullish s) ci ctx st) with
    ((if isUnion ci
      then every (fun member =>
                    some (fun m => _accepts m member ctx)
                      [nullable s; t.undefined]) (types ci)
      else some (fun m => _accepts m ci ctx) [nullable s; t.undefined]) st)
    in Heq.
  rewrite Hnu in Heq. rewrite Heq.
  destruct (Hraise st Hst) as (st' & -> & Hst'). by exists st'.
Qed.

(** C6 (amended).  [s.nullish()] is [s.nullable().optional()] and its node is
    optional.  On a candidate that is not a union it returns [true] when [s]
    does; when [s] returns [false] it returns [true] exactly for a candidate
    assignable to [null] or to [undefined]; an error of [s] propagates.  A
    union candidate (whose constituents are not unions) is taken apart and its
    constituents are tried in order, a constituent passing when [s] accepts it
    or it is assignable to [null] or [undefined]:
    - when [s] returns booleans on all constituents, the result is [true] iff
      every constituent passes: [base | null] and [base | null | undefined]
      are accepted, but a union that [s] accepts as a whole need not be;
    - after constituents that pass, a constituent that does not pass makes the
      result [false], and an error that [s] raises on a constituent
      propagates. *)
Theorem nullish_accepts (s : TypeSchema) :
  nullish s = optional (nullable s) /\
  _isOptional (nullish s) = true /\
  (forall c ctx st, isUnion c = false ->
     forall st',
     (_accepts s c ctx st = (Ok true, st') ->
      _accepts (nullish s) c ctx st = (Ok true, st')) /\
     (_accepts s c ctx st = (Ok false, st') ->
      _accepts (nullish s) c ctx st = (Ok (nullOrUndefined ctx c), st')) /\
     (forall e, _accepts s c ctx st = (Throw e, st') ->
      _accepts (nullish s) c ctx st = (Throw e, st'))) /\
  (forall Inv c ctx, isUnion c = true ->
     (forall ci, ci ∈ types c ->
        isUnion ci = false /\ exists b, Verdict Inv ctx s ci b) ->
     forall st, Inv st ->
     exists b st',
       _accepts (nullish s) c ctx st = (Ok b, st') /\ Inv st' /\
       (b = true <->
        forall ci, ci ∈ types c ->
          Accepts Inv ctx s ci \/ nullOrUndefined ctx ci = true)) /\
  (forall Inv c ctx pre ci post, isUnion c = true ->
     types c = (pre ++ ci :: post)%list ->
     (forall cj, cj ∈ pre ->
        isUnion cj = false /\
        exists b, Verdict Inv ctx s cj b /\
                  b || nullOrUndefined ctx cj = true) ->
     isUnion ci = false ->
     (Verdict Inv ctx s ci false -> nullOrUndefined ctx ci = false ->
      Verdict Inv ctx (nullish s) c false) /\
     (forall message, Raises Inv ctx s ci message ->
      Raises Inv ctx (nullish s) c message)).
Proof.
  split; [reflexivity|]. split; [reflexivity|]. split; [|split].
  - intros c ctx st Hnu st'.
    split; [|split]; intros; rewrite nullish_not_union by done;
      by match goal with H : _accepts _ _ _ _ = _ |- _ => rewrite H end.
  - intros Inv c ctx Hu Hparts st Hst.
    change (_accepts (nullish s) c ctx st) with
      ((if isUnion c
        then every (fun member =>
                      some (fun m => _accepts m member ctx)
                        [nullable s; t.undefined]) (types c)
        else some (fun m => _accepts m c ctx) [nullable s; t.undefined]) st).
    rewrite Hu.
    destruct (every_Decides Inv
                (fun member => some (fun m => _accepts m member ctx)
                                 [nullable s; t.undefined]) (types c))
      as (b & Hb & H1 & H2).
    { intros ci Hci. destruct (Hparts ci Hci) as (Hnu & bi & Hbi).
      eexists. by apply nullish_constituent. }
    destruct (Hb st Hst) as (st' & E & Hst').
    exists b, st'. split; [done|]. split; [done|]. split.
    + intros Hbt ci Hci. specialize (H1 Hbt ci Hci).
      destruct (Hparts ci Hci) as (Hnu & bi & Hbi).
      pose proof (nullish_constituent Inv s ci ctx bi Hnu Hbi) as Hdec.
      pose proof (Decides_unique Inv _ _ _ st Hst Hdec H1) as Hor.
      destruct bi; [by left|]. right. exact Hor.
    + intros Hall. apply (H2 st Hst). intros ci Hci.
      destruct (Hparts ci Hci) as (Hnu & bi & Hbi).
      pose proof (nullish_constituent Inv s ci ctx bi Hnu Hbi) as Hdec.
      destruct (Hall ci Hci) as [Hacc|Hnull].
      * by rewrite (Decides_unique Inv _ _ _ st Hst Hbi Hacc) in Hdec.
      * by rewrite Hnull, orb_true_r in Hdec.
  - intros Inv c ctx pre ci post Hu Htypes Hpre Hnu.
    assert (_accepts (nullish s) c ctx
            = every (fun member =>
                       some (fun m => _accepts m member ctx)
                         [nullable s; t.undefined]) (pre ++ ci :: post)%list)
      as Hc.
    { change (_accepts (nullish s) c ctx) with
        (if isUnion c
         then every (fun member =>
                       some (fun m => _accepts m member ctx)
                         [nullable s; t.undefined]) (types c)
         else some (fun m => _accepts m c ctx) [nullable s; t.undefined]).
      by rewrite Hu, Htypes. }
    destruct (every_stops Inv
                (fun member => some (fun m => _accepts m member ctx)
                                 [nullable s; t.undefined]) pre ci post)
      as [Hfalse Hthrow].
    { intros cj Hcj. destruct (Hpre cj Hcj) as (Hnj & b & Hb & Hpass).
      rewrite <- Hpass. by apply nullish_constituent. }
    unfold Verdict, Raises. rewrite Hc. split.
    + intros Hs Hnone. apply Hfalse.
      pose proof (nullish_constituent Inv s ci ctx false Hnu Hs) as Hdec.
      by rewrite Hnone in Hdec.
    + intros message Hraise. apply Hthrow.
      by apply nullish_constituent_raises.
Qed.

End NullishFacts.

(** [number.nullish()] against [number], [null], [string] and
    [number | null | undefined]; a schema that rejects [null] and throws on
    everything else, against [number | null], whose constituents are [null]
    (which passes) and [number]; and [number.nullish()] against
    [string | number], whose first constituent does not pass. *)
Lemma nullish_accepts_witness :
  let s := nullish (host := Toy.toyHost) t.number in
  let boom :=
    t.custom (host := Toy.toyHost)
      (fun type _ =>
         if bool_decide (type = Toy.TNull) then ret false else throw "boom") in
  _accepts s Toy.TNumber Toy.ctxChecker Toy.fresh = (Ok true, Toy.fresh) /\
  _accepts s Toy.TNull Toy.ctxChecker Toy.fresh = (Ok true, Toy.fresh) /\
  _accepts s Toy.TString Toy.ctxChecker Toy.fresh = (Ok false, Toy.fresh) /\
  (exists b st',
     _accepts s Toy.TNumOrNullOrUndef Toy.ctxChecker Toy.fresh = (Ok b, st') /\
     True /\
     (b = true <->
      forall ci, ci ∈ [Toy.TUndefined; Toy.TNull; Toy.TNumber] ->
        Accepts (fun _ => True) Toy.ctxChecker t.number ci \/
        nullOrUndefined Toy.ctxChecker ci = true)) /\
  Raises (fun _ => True) Toy.ctxChecker (nullish boom) Toy.TNumOrNull "boom" /\
  Verdict (fun _ => True) Toy.ctxChecker s Toy.TStrOrNum false.
Proof.
  intros s boom. subst s.
  destruct (nullish_accepts (host := Toy.toyHost) t.number)
    as (_ & _ & Hsingle & Hunion & Hordered).
  split; [|split; [|split; [|split; [|split]]]].
  - by apply (Hsingle Toy.TNumber Toy.ctxChecker Toy.fresh eq_refl Toy.fresh).
  - by apply (Hsingle Toy.TNull Toy.ctxChecker Toy.fresh eq_refl Toy.fresh).
  - by apply (Hsingle Toy.TString Toy.ctxChecker Toy.fresh eq_refl Toy.fresh).
  - apply (Hunion (fun _ => True) Toy.TNumOrNullOrUndef Toy.ctxChecker eq_refl);
      [|exact I].
    intros ci Hci. split.
    + repeat (apply elem_of_cons in Hci as [->|Hci]; [reflexivity|]).
      by apply elem_of_nil in Hci.
    + eexists. apply Decides_ret.
  - destruct (nullish_accepts (host := Toy.toyHost) boom)
      as (_ & _ & _ & _ & Hboom).
    apply (Hboom (fun _ => True) Toy.TNumOrNull Toy.ctxChecker
             [Toy.TNull] Toy.TNumber [] eq_refl eq_refl).
    + intros cj Hcj. apply list_elem_of_singleton in Hcj as ->.
      split; [reflexivity|]. exists false. split; [apply Decides_ret|].
      reflexivity.
    + reflexivity.
    + intros st _. by exists st.
  - apply (Hordered (fun _ => True) Toy.TStrOrNum Toy.ctxChecker
             [] Toy.TString [Toy.TNumber] eq_refl eq_refl).
    + intros cj Hcj. by apply elem_of_nil in Hcj.
    + reflexivity.
    + apply Decides_ret.
    + reflexivity.
Defined.

(** C6 as stated fails on union candidates: the schema
    [custom((type) => type.isUnion())] accepts [string | number], and its
    [.nullish()] rejects it, because the union is taken apart and neither
    constituent is a union, [null] or [undefined]. *)
Lemma nullish_accepts_counterexample :
  let s := t.custom (host := Toy.toyHost) (fun type _ => ret (isUnion type)) in
  fst (_accepts s Toy.TStrOrNum Toy.ctxChecker Toy.fresh) = Ok true /\
  fst (_accepts (nullish s) Toy.TStrOrNum Toy.ctxChecker Toy.fresh) = Ok false.
Proof. split; reflexivity. Qed.

(** ** Modifiers and the heap *)

Section HeapFacts.
Context `{host : TsHost}.

Lemma hbind_eq {A B} (m : H A) (k : A -> H B) h a h' :
  m h = Some (a, h') -> hbind m k h = k a h'.
Proof. intros Hm. unfold hbind. by rewrite Hm. Qed.

Lemma new_union_eval (h : Heap) (a b : nat) (sa sb : TypeSchema) :
  h !! a = Some sa -> h !! b = Some sb ->
  new_union [a; b] h = Some (List.length h, (h ++ [t.union [sa; sb]])%list).
Proof.
  intros Ha Hb. unfold new_union.
  rewrite (hbind_eq _ _ h [sa; sb] h); [reflexivity|].
  unfold derefAll, hbind, deref. by rewrite Ha, Hb.
Qed.

Lemma nullable_method_eval (h : Heap) (this : nat) (s : TypeSchema) :
  h !! this = Some s ->
  nullable_method this h
  = Some (S (List.length h), (h ++ [t.null; nullable s])%list).
Proof.
  intros Hthis. unfold nullable_method.
  rewrite (hbind_eq _ _ h (List.length h) (h ++ [t.null])%list) by reflexivity.
  rewrite (new_union_eval _ this (List.length h) s t.null).
  - rewrite length_app, <- app_assoc. simpl. by rewrite Nat.add_1_r.
  - by apply lookup_app_l_Some.
  - by apply list_lookup_middle.
Qed.

Lemma optional_method_eval (h : Heap) (this : nat) (s : TypeSchema) :
  h !! this = Some s ->
  optional_method this h
  = Some (S (S (List.length h)),
          (h ++ [t.undefined; t.union [s; t.undefined]; optional s])%list).
Proof.
  intros Hthis. unfold optional_method.
  rewrite (hbind_eq _ _ h (List.length h) (h ++ [t.undefined])%list)
    by reflexivity.
  rewrite (hbind_eq _ _ _ (S (List.length h))
             (h ++ [t.undefined; t.union [s; t.undefined]])%list).
  - rewrite (hbind_eq _ _ _ (t.union [s; t.undefined])
               (h ++ [t.undefined; t.union [s; t.undefined]])%list).
    + unfold new. rewrite length_app, <- app_assoc. simpl.
      by rewrite Nat.add_comm.
    + unfold deref. rewrite lookup_app_r by lia.
      by replace (S (List.length h) - List.length h)%nat with 1%nat by lia.
  - rewrite (new_union_eval _ this (List.length h) s t.undefined).
    + rewrite length_app, <- app_assoc. simpl. by rewrite Nat.add_1_r.
    + by apply lookup_app_l_Some.
    + by apply list_lookup_middle.
Qed.

Lemma nullish_method_eval (h : Heap) (this : nat) (s : TypeSchema) :
  h !! this = Some s ->
  nullish_method this h
  = Some (4 + List.length h,
          (h ++ [t.null; nullable s; t.undefined;
                 t.union [nullable s; t.undefined]; nullish s])%list)%nat.
Proof.
  intros Hthis. unfold nullish_method, hbind.
  rewrite (nullable_method_eval h this s Hthis).
  rewrite (optional_method_eval _ _ (nullable s)).
  - rewrite length_app, <- app_assoc. simpl.
    by rewrite Nat.add_comm.
  - rewrite lookup_app_r; rewrite ?length_app; simpl; [|lia].
    by replace (S (List.length h) - List.length h)%nat with 1%nat by lia.
Qed.

(** Cells appended to a heap: the old ones stay, the new ones are new. *)
Lemma allocatesFresh_append (m : nat -> H nat) f (h : Heap) this s
    (extra : list TypeSchema) :
  h !! this = Some s ->
  m this h = Some ((List.length h + List.length extra)%nat,
                   (h ++ extra ++ [f s])%list) ->
  allocatesFresh m f h this s.
Proof.
  intros Hthis Hm.
  exists (List.length h + List.length extra)%nat, (h ++ extra ++ [f s])%list.
  split; [done|]. split; [|split; [|split]].
  - apply lookup_ge_None. lia.
  - rewrite lookup_app_r by lia. rewrite lookup_app_r by lia.
    by replace (_ - _ - _)%nat with 0%nat by lia.
  - by apply lookup_app_l_Some.
  - intros a node Ha. by apply lookup_app_l_Some.
Qed.

(** C8.  [.optional()], [.nullable()] and [.nullish()] return the address of
    a newly allocated node that holds the modified schema, and leave every
    existing node as it was, in particular the receiver with its predicate and
    its [isOptional] flag; so a base schema modified twice yields two nodes
    and is still itself. *)
Theorem modifiers_do_not_mutate (h : Heap) (this : nat) (s : TypeSchema) :
  h !! this = Some s ->
  allocatesFresh optional_method optional h this s /\
  allocatesFresh nullable_method nullable h this s /\
  allocatesFresh nullish_method nullish h this s /\
  (exists r1 h1 r2 h2,
     optional_method this h = Some (r1, h1) /\
     nullable_method this h1 = Some (r2, h2) /\
     r1 <> r2 /\ r1 <> this /\ r2 <> this /\
     h2 !! this = Some s /\
     h2 !! r1 = Some (optional s) /\
     h2 !! r2 = Some (nullable s)).
Proof.
  intros Hthis. split; [|split; [|split]].
  - apply (allocatesFresh_append _ _ h this s
             [t.undefined; t.union [s; t.undefined]] Hthis).
    rewrite (optional_method_eval h this s Hthis). simpl.
    by rewrite Nat.add_comm.
  - apply (allocatesFresh_append _ _ h this s [t.null] Hthis).
    rewrite (nullable_method_eval h this s Hthis). simpl.
    by rewrite Nat.add_comm.
  - apply (allocatesFresh_append _ _ h this s
             [t.null; nullable s; t.undefined;
              t.union [nullable s; t.undefined]] Hthis).
    rewrite (nullish_method_eval h this s Hthis). simpl.
    by rewrite Nat.add_comm.
  - pose proof (lookup_lt_Some _ _ _ Hthis) as Hlt.
    set (h1 := (h ++ [t.undefined; t.union [s; t.undefined]; optional s])%list).
    assert (h1 !! this = Some s) as Hthis1 by by apply lookup_app_l_Some.
    exists (S (S (List.length h))), h1, (S (List.length h1)),
      (h1 ++ [t.null; nullable s])%list.
    split; [by apply optional_method_eval|].
    split; [by apply nullable_method_eval|].
    assert (List.length h1 = 3 + List.length h)%nat as Hlen
      by (unfold h1; rewrite length_app; simpl; lia).
    split; [lia|]. split; [lia|]. split; [lia|].
    split; [by apply lookup_app_l_Some|]. split.
    + apply lookup_app_l_Some. unfold h1.
      rewrite lookup_app_r by lia.
      by replace (S (S (List.length h)) - List.length h)%nat with 2%nat by lia.
    + rewrite lookup_app_r by lia.
      by replace (S (List.length h1) - List.length h1)%nat with 1%nat by lia.
Qed.

End HeapFacts.

(** A heap that holds [t.number()] at address 0. *)
Lemma modifiers_do_not_mutate_witness :
  allocatesFresh (host := Toy.toyHost) optional_method optional
    [t.number] 0 t.number /\
  allocatesFresh (host := Toy.toyHost) nullable_method nullable
    [t.number] 0 t.number /\
  allocatesFresh (host := Toy.toyHost) nullish_method nullish
    [t.number] 0 t.number.
Proof.
  destruct (modifiers_do_not_mutate (host := Toy.toyHost) [t.number] 0 t.number
              eq_refl) as (Ho & Hn & Hs & _).
  by repeat split.
Defined.

(** ** The test suite, on the small host *)

(** The expectations of the repository's tests that the small host can
    express, evaluated on the embedding. *)

Example test_object_missing_required :
  fst (_accepts (host := Toy.toyHost)
         (t.object [("x", t.number); ("y", t.number)])
         Toy.TOnlyX Toy.ctxChecker Toy.fresh) = Ok false.
Proof. reflexivity. Qed.

Example test_object_optional_accepts_absent :
  fst (_accepts (host := Toy.toyHost)
         (t.object [("x", t.number); ("y", optional t.number)])
         Toy.TOnlyX Toy.ctxChecker Toy.fresh) = Ok true.
Proof. reflexivity. Qed.

Example test_object_optional_accepts_optional :
  fst (_accepts (host := Toy.toyHost)
         (t.object [("x", t.number); ("y", optional t.number)])
         Toy.TPointOptY Toy.ctxChecker Toy.fresh) = Ok true.
Proof. reflexivity. Qed.

Example test_nullable_accepts_base_or_null :
  fst (_accepts (host := Toy.toyHost) (nullable t.number)
         Toy.TNumOrNull Toy.ctxChecker Toy.fresh) = Ok true.
Proof. reflexivity. Qed.

Example test_nullable_rejects_unrelated :
  fst (_accepts (host := Toy.toyHost) (nullable t.number)
         Toy.TString Toy.ctxChecker Toy.fresh) = Ok false.
Proof. reflexivity. Qed.

Example test_union_rejects_uncovered_member :
  fst (_accepts (host := Toy.toyHost) (t.union [t.string; t.number])
         Toy.TStrOrNumOrBool Toy.ctxChecker Toy.fresh) = Ok false.
Proof. reflexivity. Qed.

Example test_intersection_of_objects :
  fst (_accepts (host := Toy.toyHost)
         (t.intersection [t.object [("x", t.number)];
                          t.object [("label", t.string)]])
         Toy.TLabelled Toy.ctxChecker Toy.fresh) = Ok true /\
  fst (_accepts (host := Toy.toyHost)
         (t.intersection [t.object [("x", t.number)];
                          t.object [("label", t.string)]])
         Toy.TPoint Toy.ctxChecker Toy.fresh) = Ok false.
Proof. split; reflexivity. Qed.

Example test_fromModule_resolves_class :
  fst (_accepts (host := Toy.toyHost) (t.fromModule "fake-lib" "Gadget")
         Toy.TGadget Toy.ctxFile Toy.fresh) = Ok true /\
  fst (_accepts (host := Toy.toyHost) (t.fromModule "fake-lib" "Gadget")
         Toy.TString Toy.ctxFile Toy.fresh) = Ok false.
Proof. split; vm_compute; reflexivity. Qed.

Example test_cacheKey :
  cacheKey (host := Toy.toyHost) "./lib" "Widget" (Some Toy.testFile)
  = ("[" ++ dquote ++ "./lib" ++ dquote ++ "," ++ dquote ++ "Widget" ++ dquote
     ++ "," ++ dquote ++ "/test.ts" ++ dquote ++ "]")%string /\
  cacheKey (host := Toy.toyHost) "fake-lib" "Gadget" (Some Toy.testFile)
  = ("[" ++ dquote ++ "fake-lib" ++ dquote ++ "," ++ dquote ++ "Gadget"
     ++ dquote ++ ",null]")%string.
Proof. split; reflexivity. Qed.

(** * Further properties of the combinators *)

(** ** Schemas that neither raise nor touch the cache *)

Section PureFacts.
Context `{host : TsHost}.

Lemma Quiet_ret (b : bool) : Quiet (ret b).
Proof. by exists b. Qed.

Lemma every_Quiet {A} (f : A -> M bool) (l : list A) :
  (forall x, x ∈ l -> Quiet (f x)) -> Quiet (every f l).
Proof.
  induction l as [|x l IH]; intros Hq; [apply Quiet_ret|].
  destruct (Hq x ltac:(left)) as [bx Hx].
  destruct IH as [bl Hl]. { intros y Hy. apply Hq. by right. }
  exists (bx && bl). intros st. rewrite every_cons, Hx.
  destruct bx; [apply Hl|done].
Qed.

Lemma some_Quiet {A} (f : A -> M bool) (l : list A) :
  (forall x, x ∈ l -> Quiet (f x)) -> Quiet (some f l).
Proof.
  induction l as [|x l IH]; intros Hq; [apply Quiet_ret|].
  destruct (Hq x ltac:(left)) as [bx Hx].
  destruct IH as [bl Hl]. { intros y Hy. apply Hq. by right. }
  exists (bx || bl). intros st. rewrite some_cons, Hx.
  destruct bx; [done|apply Hl].
Qed.

Lemma checkEntry_Quiet c ctx (e : string * TypeSchema) :
  Pure (snd e) -> Quiet (checkEntry c ctx e).
Proof.
  intros Hp. unfold checkEntry.
  destruct (getProperty c (fst e)) as [sym|]; [|apply Quiet_ret].
  destruct (negb (_isOptional (snd e)) && _); [apply Quiet_ret|apply Hp].
Qed.

Lemma union_Pure (members : list TypeSchema) :
  (forall m, m ∈ members -> Pure m) -> Pure (t.union members).
Proof.
  intros Hm c ctx.
  change (Quiet (if isUnion c
                 then every (fun member =>
                               some (fun m => _accepts m member ctx) members)
                        (types c)
                 else some (fun m => _accepts m c ctx) members)).
  destruct (isUnion c).
  - apply every_Quiet. intros ci _. apply some_Quiet. intros m Hin. by apply Hm.
  - apply some_Quiet. intros m Hin. by apply Hm.
Qed.

Lemma primitive_Pure (target : TypeChecker -> Ty) :
  Pure (schema (fun type ctx =>
          ret (isTypeAssignableTo (checker ctx) type (target (checker ctx))))).
Proof. intros c ctx. apply Quiet_ret. Qed.

(** X1.  Every builder except [fromModule] and [custom] yields a schema that
    never raises and never touches the cache, provided the schemas it is given
    are such: the primitives, [any] and [unknown] are, and [object], [array],
    [union], [intersection], [.optional()], [.nullable()] and [.nullish()]
    keep the property. *)
Theorem builders_keep_purity :
  (Pure t.number /\ Pure t.string /\ Pure t.boolean /\ Pure t.void /\
   Pure t.undefined /\ Pure t.null /\ Pure t.any /\ Pure t.unknown) /\
  (forall shape, (forall e, e ∈ shape -> Pure (snd e)) ->
     Pure (t.object shape)) /\
  (forall element, Pure element -> Pure (t.array element)) /\
  (forall members, (forall m, m ∈ members -> Pure m) ->
     Pure (t.union members)) /\
  (forall members, (forall m, m ∈ members -> Pure m) ->
     Pure (t.intersection members)) /\
  (forall s, Pure s ->
     Pure (optional s) /\ Pure (nullable s) /\ Pure (nullish s)).
Proof.
  split.
  { repeat split; try apply primitive_Pure; intros c ctx; apply Quiet_ret. }
  split.
  { intros shape Hshape c ctx. rewrite object_unfold. apply every_Quiet.
    intros e He. by apply checkEntry_Quiet, Hshape. }
  split.
  { intros element He c ctx. simpl.
    destruct (getNumberIndexType c); [apply He|apply Quiet_ret]. }
  split; [exact union_Pure|]. split.
  { intros members Hm c ctx. apply every_Quiet. intros m Hin. by apply Hm. }
  intros s Hs.
  assert (forall q, Pure q -> forall u, Pure u -> Pure (t.union [q; u])) as Hpair.
  { intros q Hq u Hu. apply union_Pure. intros m Hin.
    apply elem_of_cons in Hin as [->|Hin]; [done|].
    by apply list_elem_of_singleton in Hin as ->. }
  assert (Pure (nullable s)) as Hn by (apply Hpair; [done|apply primitive_Pure]).
  split; [|split; [done|]].
  - intros c ctx. apply (Hpair s Hs t.undefined); apply primitive_Pure.
  - intros c ctx. apply (Hpair (nullable s) Hn t.undefined); apply primitive_Pure.
Qed.

End PureFacts.

(** [{ x: number, tags: string.nullish()[] }] is pure. *)
Lemma builders_keep_purity_witness :
  Pure (host := Toy.toyHost)
    (t.object [("x", t.number); ("tags", t.array (nullish t.string))]).
Proof.
  destruct (builders_keep_purity (host := Toy.toyHost))
    as ((Hnum & Hstr & _) & Hobj & Harr & _ & _ & Hmod).
  apply Hobj. intros e He.
  apply elem_of_cons in He as [->|He]; [exact Hnum|].
  apply list_elem_of_singleton in He as ->.
  apply Harr. by apply Hmod.
Defined.

(** ** Intersections, member order and short circuits *)

Section OrderFacts.
Context `{host : TsHost}.

(** X2.  When every member schema returns a boolean on the candidate (raises
    no error there), an intersection schema returns, and it returns [true] iff
    every member accepts the candidate; the candidate is handed to the members
    whole, also when it is a union. *)
Theorem intersection_accepts_iff (Inv : State -> Prop) (ctx : SchemaContext)
    (members : list TypeSchema) (c : Ty) :
  (forall m, m ∈ members -> exists b, Verdict Inv ctx m c b) ->
  forall st, Inv st ->
  exists b st',
    _accepts (t.intersection members) c ctx st = (Ok b, st') /\ Inv st' /\
    (b = true <-> forall m, m ∈ members -> Accepts Inv ctx m c).
Proof.
  intros Hdec st Hst.
  destruct (every_Decides Inv (fun m => _accepts m c ctx) members Hdec)
    as (b & Hb & H1 & H2).
  destruct (Hb st Hst) as (st' & E & Hst').
  exists b, st'. split; [exact E|]. split; [done|]. split; [exact H1|].
  apply (H2 st Hst).
Qed.

Lemma every_ext_pointwise {A} (f g : A -> M bool) (l : list A) :
  (forall x, x ∈ l -> forall st, f x st = g x st) ->
  forall st, every f l st = every g l st.
Proof.
  induction l as [|x l IH]; intros Hfg st; [reflexivity|].
  rewrite !every_cons, (Hfg x) by left.
  destruct (g x st) as [[[|]|e] st']; try reflexivity.
  apply IH. intros y Hy. apply Hfg. by right.
Qed.

Lemma every_Permutation {A} (f : A -> M bool) (l l' : list A) :
  l ≡ₚ l' -> (forall x, x ∈ l -> Quiet (f x)) ->
  forall st, every f l st = every f l' st.
Proof.
  induction 1 as [|x l l' Hp IH|x y l|l l' l'' Hp1 IH1 Hp2 IH2];
    intros Hq st.
  - reflexivity.
  - destruct (Hq x ltac:(left)) as [bx Hx].
    rewrite !every_cons, Hx. destruct bx; [|reflexivity].
    apply IH. intros z Hz. apply Hq. by right.
  - destruct (Hq x ltac:(right; left)) as [bx Hx].
    destruct (Hq y ltac:(left)) as [by' Hy].
    rewrite (every_cons f y), Hy, (every_cons f x (y :: l)), Hx.
    destruct bx, by'; rewrite ?every_cons, ?Hx, ?Hy; reflexivity.
  - rewrite IH1 by done. apply IH2.
    intros z Hz. apply Hq. by rewrite Hp1.
Qed.

Lemma some_Permutation {A} (f : A -> M bool) (l l' : list A) :
  l ≡ₚ l' -> (forall x, x ∈ l -> Quiet (f x)) ->
  forall st, some f l st = some f l' st.
Proof.
  induction 1 as [|x l l' Hp IH|x y l|l l' l'' Hp1 IH1 Hp2 IH2];
    intros Hq st.
  - reflexivity.
  - destruct (Hq x ltac:(left)) as [bx Hx].
    rewrite !some_cons, Hx. destruct bx; [reflexivity|].
    apply IH. intros z Hz. apply Hq. by right.
  - destruct (Hq x ltac:(right; left)) as [bx Hx].
    destruct (Hq y ltac:(left)) as [by' Hy].
    rewrite (some_cons f y), Hy, (some_cons f x (y :: l)), Hx.
    destruct bx, by'; rewrite ?some_cons, ?Hx, ?Hy; reflexivity.
  - rewrite IH1 by done. apply IH2.
    intros z Hz. apply Hq. by rewrite Hp1.
Qed.

(** X3.  For pure schemas the order does not matter: an object schema gives
    the same outcome for every order of its shape entries, and a union or an
    intersection schema for every order of its members. *)
Theorem order_irrelevant_for_pure_schemas :
  (forall shape shape', shape ≡ₚ shape' ->
     (forall e, e ∈ shape -> Pure (snd e)) ->
     forall c ctx st,
       _accepts (t.object shape) c ctx st = _accepts (t.object shape') c ctx st) /\
  (forall members members', members ≡ₚ members' ->
     (forall m, m ∈ members -> Pure m) ->
     forall c ctx st,
       _accepts (t.union members) c ctx st
       = _accepts (t.union members') c ctx st /\
       _accepts (t.intersection members) c ctx st
       = _accepts (t.intersection members') c ctx st).
Proof.
  split.
  - intros shape shape' Hperm Hpure c ctx st. rewrite !object_unfold.
    apply every_Permutation; [done|].
    intros e He. by apply checkEntry_Quiet, Hpure.
  - intros members members' Hperm Hpure c ctx st. split.
    + change (_accepts (t.union members) c ctx st) with
        ((if isUnion c
          then every (fun member =>
                        some (fun m => _accepts m member ctx) members)
                 (types c)
          else some (fun m => _accepts m c ctx) members) st).
      change (_accepts (t.union members') c ctx st) with
        ((if isUnion c
          then every (fun member =>
                        some (fun m => _accepts m member ctx) members')
                 (types c)
          else some (fun m => _accepts m c ctx) members') st).
      destruct (isUnion c).
      * apply every_ext_pointwise. intros ci _ st1.
        apply some_Permutation; [done|]. intros m Hin. by apply Hpure.
      * apply some_Permutation; [done|]. intros m Hin. by apply Hpure.
    + apply (every_Permutation (fun m => _accepts m c ctx)); [done|].
      intros m Hin. by apply Hpure.
Qed.

Lemma some_first_true {A} (Inv : State -> Prop) (f : A -> M bool) pre x post :
  (forall y, y ∈ pre -> Decides Inv (f y) false) ->
  Decides Inv (f x) true ->
  Decides Inv (some f (pre ++ x :: post)%list) true.
Proof.
  intros Hpre Hx. induction pre as [|y pre IH]; intros st Hst; simpl app.
  - rewrite some_cons. destruct (Hx st Hst) as (st' & -> & Hst'). by exists st'.
  - rewrite some_cons. destruct (Hpre y ltac:(left) st Hst) as (st' & -> & Hst').
    apply IH; [|done]. intros z Hz. apply Hpre. by right.
Qed.

Lemma every_first_false {A} (Inv : State -> Prop) (f : A -> M bool) pre x post :
  (forall y, y ∈ pre -> Decides Inv (f y) true) ->
  Decides Inv (f x) false ->
  Decides Inv (every f (pre ++ x :: post)%list) false.
Proof.
  intros Hpre Hx. induction pre as [|y pre IH]; intros st Hst; simpl app.
  - rewrite every_cons. destruct (Hx st Hst) as (st' & -> & Hst'). by exists st'.
  - rewrite every_cons.
    destruct (Hpre y ltac:(left) st Hst) as (st' & -> & Hst').
    apply IH; [|done]. intros z Hz. apply Hpre. by right.
Qed.

(** X4.  The first member that decides ends the evaluation: on a candidate
    that is not a union, a union schema returns [true] as soon as a member
    accepts after the members before it rejected, and an intersection schema
    returns [false] as soon as a member rejects after the members before it
    accepted.  The members that follow are not evaluated, so an error they
    would raise does not surface. *)
Theorem first_deciding_member_wins (Inv : State -> Prop) (ctx : SchemaContext)
    (pre post : list TypeSchema) (m : TypeSchema) (c : Ty) :
  (isUnion c = false ->
   (forall x, x ∈ pre -> Verdict Inv ctx x c false) ->
   Verdict Inv ctx m c true ->
   Verdict Inv ctx (t.union (pre ++ m :: post)%list) c true) /\
  ((forall x, x ∈ pre -> Verdict Inv ctx x c true) ->
   Verdict Inv ctx m c false ->
   Verdict Inv ctx (t.intersection (pre ++ m :: post)%list) c false).
Proof.
  split.
  - intros Hnu Hpre Hm. unfold Verdict.
    change (_accepts (t.union (pre ++ m :: post)%list) c ctx) with
      (if isUnion c
       then every (fun member =>
                     some (fun x => _accepts x member ctx)
                       (pre ++ m :: post)%list) (types c)
       else some (fun x => _accepts x c ctx) (pre ++ m :: post)%list).
    rewrite Hnu. by apply some_first_true.
  - intros Hpre Hm. by apply (every_first_false Inv (fun x => _accepts x c ctx)).
Qed.

(** X5.  A union schema treats a union candidate as the collection of its
    constituents: when the member schemas return booleans on the constituents
    (which are not unions themselves), the schema accepts the candidate iff it
    accepts each constituent on its own. *)
Theorem union_schema_distributes (Inv : State -> Prop) (ctx : SchemaContext)
    (members : list TypeSchema) (c : Ty) (st0 : State) :
  Inv st0 ->
  isUnion c = true ->
  (forall ci, ci ∈ types c -> isUnion ci = false) ->
  (forall m ci, m ∈ members -> ci ∈ types c ->
     exists b, Verdict Inv ctx m ci b) ->
  (Accepts Inv ctx (t.union members) c <->
   forall ci, ci ∈ types c -> Accepts Inv ctx (t.union members) ci).
Proof.
  intros Hst0 Hu Hparts Hdec.
  assert (forall ci, ci ∈ types c ->
            _accepts (t.union members) ci ctx
            = some (fun m => _accepts m ci ctx) members) as Hci.
  { intros ci Hin.
    change (_accepts (t.union members) ci ctx) with
      (if isUnion ci
       then every (fun member => some (fun m => _accepts m member ctx) members)
              (types ci)
       else some (fun m => _accepts m ci ctx) members).
    by rewrite (Hparts ci Hin). }
  assert (_accepts (t.union members) c ctx
          = every (fun member => some (fun m => _accepts m member ctx) members)
              (types c)) as Hc.
  { change (_accepts (t.union members) c ctx) with
      (if isUnion c
       then every (fun member => some (fun m => _accepts m member ctx) members)
              (types c)
       else some (fun m => _accepts m c ctx) members).
    by rewrite Hu. }
  destruct (every_Decides Inv
              (fun member => some (fun m => _accepts m member ctx) members)
              (types c)) as (b & Hb & H1 & H2).
  { intros ci Hin.
    destruct (some_Decides Inv (fun m => _accepts m ci ctx) members)
      as (bi & Hbi & _); [|by exists bi].
    intros m Hm. by apply Hdec. }
  unfold Accepts, Verdict. rewrite Hc. split.
  - intros Hacc ci Hin. rewrite (Hci ci Hin). apply H1; [|done].
    exact (Decides_unique Inv _ b true st0 Hst0 Hb Hacc).
  - intros Hall.
    assert (b = true) as <-; [|done].
    apply (H2 st0 Hst0). intros ci Hin. rewrite <- (Hci ci Hin). by apply Hall.
Qed.

End OrderFacts.

Section PureVerdicts.
Context `{host : TsHost}.

Lemma Pure_Verdict (s : TypeSchema) :
  Pure s -> forall Inv ctx c, exists b, Verdict Inv ctx s c b.
Proof.
  intros Hs Inv ctx c. destruct (Hs c ctx) as [b Hb].
  exists b. intros st Hst. exists st. by rewrite Hb.
Qed.

Lemma object_Pure (shape : list (string * TypeSchema)) :
  (forall e, e ∈ shape -> Pure (snd e)) -> Pure (t.object shape).
Proof.
  intros Hshape c ctx. rewrite object_unfold. apply every_Quiet.
  intros e He. by apply checkEntry_Quiet, Hshape.
Qed.

End PureVerdicts.

(** [intersection({ x: number }, { label: string })] against
    [{ x; y; label }]. *)
Lemma intersection_accepts_iff_witness :
  exists b st',
    _accepts (host := Toy.toyHost)
      (t.intersection [t.object [("x", t.number)];
                       t.object [("label", t.string)]])
      Toy.TLabelled Toy.ctxChecker Toy.fresh = (Ok b, st') /\ True /\
    (b = true <->
     forall m, m ∈ [t.object [("x", t.number)];
                    t.object [("label", t.string)]] ->
       Accepts (fun _ => True) Toy.ctxChecker m Toy.TLabelled).
Proof.
  apply (intersection_accepts_iff (host := Toy.toyHost) (fun _ => True)
           Toy.ctxChecker _ Toy.TLabelled); [|exact I].
  intros m Hm. apply Pure_Verdict.
  apply elem_of_cons in Hm as [->|Hm];
    [|apply list_elem_of_singleton in Hm as ->];
    apply object_Pure; intros e He; apply list_elem_of_singleton in He as ->;
    apply primitive_Pure.
Defined.

(** [{ y: number, x: number }] and [{ x: number, y: number }], and
    [union(number, string)] and [union(string, number)]. *)
Lemma order_irrelevant_for_pure_schemas_witness :
  _accepts (host := Toy.toyHost) (t.object [("y", t.number); ("x", t.number)])
    Toy.TPoint Toy.ctxChecker Toy.fresh
  = _accepts (t.object [("x", t.number); ("y", t.number)])
      Toy.TPoint Toy.ctxChecker Toy.fresh /\
  _accepts (host := Toy.toyHost) (t.union [t.number; t.string])
    Toy.TStrOrNum Toy.ctxChecker Toy.fresh
  = _accepts (t.union [t.string; t.number])
      Toy.TStrOrNum Toy.ctxChecker Toy.fresh.
Proof.
  destruct (order_irrelevant_for_pure_schemas (host := Toy.toyHost))
    as [Hobj Hmem].
  split.
  - apply Hobj; [apply perm_swap|].
    intros e He.
    apply elem_of_cons in He as [->|He];
      [|apply list_elem_of_singleton in He as ->]; apply primitive_Pure.
  - apply Hmem; [apply perm_swap|].
    intros m Hm.
    apply elem_of_cons in Hm as [->|Hm];
      [|apply list_elem_of_singleton in Hm as ->]; apply primitive_Pure.
Defined.

(** [union(any, fromModule("no-such-module", "Foo"))] accepts a [string], and
    [intersection(string, fromModule("no-such-module", "Foo"))] rejects a
    [number]: the module reference, which would throw, is not reached. *)
Lemma first_deciding_member_wins_witness :
  Verdict (host := Toy.toyHost) (fun _ => True) Toy.ctxProgram
    (t.union [t.any; t.fromModule "no-such-module" "Foo"]) Toy.TString true /\
  Verdict (host := Toy.toyHost) (fun _ => True) Toy.ctxProgram
    (t.intersection [t.string; t.fromModule "no-such-module" "Foo"])
    Toy.TNumber false.
Proof.
  split.
  - apply (first_deciding_member_wins (host := Toy.toyHost) (fun _ => True)
             Toy.ctxProgram [] [t.fromModule "no-such-module" "Foo"] t.any
             Toy.TString).
    + reflexivity.
    + intros x Hx. by apply elem_of_nil in Hx.
    + apply Decides_ret.
  - apply (first_deciding_member_wins (host := Toy.toyHost) (fun _ => True)
             Toy.ctxProgram [] [t.fromModule "no-such-module" "Foo"] t.string
             Toy.TNumber).
    + intros x Hx. by apply elem_of_nil in Hx.
    + apply Decides_ret.
Defined.

(** [union(string, number)] against [string | number] and its constituents. *)
Lemma union_schema_distributes_witness :
  Accepts (host := Toy.toyHost) (fun _ => True) Toy.ctxChecker
    (t.union [t.string; t.number]) Toy.TStrOrNum <->
  forall ci, ci ∈ [Toy.TString; Toy.TNumber] ->
    Accepts (fun _ => True) Toy.ctxChecker (t.union [t.string; t.number]) ci.
Proof.
  apply (union_schema_distributes (host := Toy.toyHost) (fun _ => True)
           Toy.ctxChecker [t.string; t.number] Toy.TStrOrNum Toy.fresh I
           eq_refl).
  - intros ci Hci.
    apply elem_of_cons in Hci as [->|Hci];
      [|apply list_elem_of_singleton in Hci as ->]; reflexivity.
  - intros m ci Hm _.
    apply elem_of_cons in Hm as [->|Hm];
      [|apply list_elem_of_singleton in Hm as ->]; eexists; apply Decides_ret.
Defined.

(** ** Optional and nullable schemas *)

Section ModifierFacts.
Context `{host : TsHost}.

Lemma union_not_union (members : list TypeSchema) c ctx :
  isUnion c = false ->
  _accepts (t.union members) c ctx = some (fun m => _accepts m c ctx) members.
Proof.
  intros Hnu.
  change (_accepts (t.union members) c ctx) with
    (if isUnion c
     then every (fun member => some (fun m => _accepts m member ctx) members)
            (types c)
     else some (fun m => _accepts m c ctx) members).
  by rewrite Hnu.
Qed.

Lemma union_is_union (members : list TypeSchema) c ctx :
  isUnion c = true ->
  _accepts (t.union members) c ctx
  = every (fun member => some (fun m => _accepts m member ctx) members)
      (types c).
Proof.
  intros Hu.
  change (_accepts (t.union members) c ctx) with
    (if isUnion c
     then every (fun member => some (fun m => _accepts m member ctx) members)
            (types c)
     else some (fun m => _accepts m c ctx) members).
  by rewrite Hu.
Qed.

(** [some] over a schema and a primitive: the schema first, then the oracle. *)
Lemma some_with_primitive (s : TypeSchema) (target : TypeChecker -> Ty) c ctx st :
  some (fun m => _accepts m c ctx)
    [s; schema (fun type ctx =>
          ret (isTypeAssignableTo (checker ctx) type (target (checker ctx))))]
    st =
  match _accepts s c ctx st with
  | (Ok true, st') => (Ok true, st')
  | (Ok false, st') =>
      (Ok (isTypeAssignableTo (checker ctx) c (target (checker ctx))), st')
  | (Throw e, st') => (Throw e, st')
  end.
Proof.
  rewrite some_cons. destruct (_accepts s c ctx st) as [[[|]|e] st']; try done.
  rewrite some_cons. simpl. unfold ret.
  by destruct (isTypeAssignableTo (checker ctx) c (target (checker ctx))).
Qed.

Lemma some_with_primitive_Decides Inv (s : TypeSchema)
    (target : TypeChecker -> Ty) c ctx b :
  Verdict Inv ctx s c b ->
  Decides Inv
    (some (fun m => _accepts m c ctx)
       [s; schema (fun type ctx =>
             ret (isTypeAssignableTo (checker ctx) type
                    (target (checker ctx))))])
    (b || isTypeAssignableTo (checker ctx) c (target (checker ctx))).
Proof.
  intros Hb st Hst. rewrite some_with_primitive.
  destruct (Hb st Hst) as (st' & -> & Hst'). exists st'. by destruct b.
Qed.

(** A schema widened by a primitive, on a union candidate. *)
Lemma widened_on_union Inv (s : TypeSchema) (target : TypeChecker -> Ty)
    c ctx :
  let widened :=
    t.union [s; schema (fun type ctx =>
                  ret (isTypeAssignableTo (checker ctx) type
                         (target (checker ctx))))] in
  isUnion c = true ->
  (forall ci, ci ∈ types c -> exists b, Verdict Inv ctx s ci b) ->
  forall st, Inv st ->
  exists b st',
    _accepts widened c ctx st = (Ok b, st') /\ Inv st' /\
    (b = true <->
     forall ci, ci ∈ types c ->
       Accepts Inv ctx s ci \/
       isTypeAssignableTo (checker ctx) ci (target (checker ctx)) = true).
Proof.
  intros widened Hu Hparts st Hst. unfold widened.
  rewrite union_is_union by done.
  destruct (every_Decides Inv
              (fun member =>
                 some (fun m => _accepts m member ctx)
                   [s; schema (fun type ctx =>
                         ret (isTypeAssignableTo (checker ctx) type
                                (target (checker ctx))))])
              (types c)) as (b & Hb & H1 & H2).
  { intros ci Hci. destruct (Hparts ci Hci) as (bi & Hbi).
    eexists. by apply some_with_primitive_Decides. }
  destruct (Hb st Hst) as (st' & E & Hst').
  exists b, st'. split; [done|]. split; [done|]. split.
  - intros Hbt ci Hci. specialize (H1 Hbt ci Hci).
    destruct (Hparts ci Hci) as (bi & Hbi).
    pose proof (some_with_primitive_Decides Inv s target ci ctx bi Hbi) as Hdec.
    pose proof (Decides_unique Inv _ _ _ st Hst Hdec H1) as Hor.
    destruct bi; [by left|]. right. exact Hor.
  - intros Hall. apply (H2 st Hst). intros ci Hci.
    destruct (Hparts ci Hci) as (bi & Hbi).
    pose proof (some_with_primitive_Decides Inv s target ci ctx bi Hbi) as Hdec.
    destruct (Hall ci Hci) as [Hacc|Hprim].
    + by rewrite (Decides_unique Inv _ _ _ st Hst Hbi Hacc) in Hdec.
    + by rewrite Hprim, orb_true_r in Hdec.
Qed.

(** A schema widened by a primitive, on a union candidate, constituent by
    constituent. *)
Lemma widened_on_union_ordered Inv (s : TypeSchema)
    (target : TypeChecker -> Ty) c ctx pre ci post :
  let widened :=
    t.union [s; schema (fun type ctx =>
                  ret (isTypeAssignableTo (checker ctx) type
                         (target (checker ctx))))] in
  isUnion c = true ->
  types c = (pre ++ ci :: post)%list ->
  (forall cj, cj ∈ pre ->
     exists b, Verdict Inv ctx s cj b /\
       b || isTypeAssignableTo (checker ctx) cj (target (checker ctx)) = true) ->
  (Verdict Inv ctx s ci false ->
   isTypeAssignableTo (checker ctx) ci (target (checker ctx)) = false ->
   Verdict Inv ctx widened c false) /\
  (forall message, Raises Inv ctx s ci message ->
   Raises Inv ctx widened c message).
Proof.
  intros widened Hu Htypes Hpre. unfold widened, Verdict, Raises.
  rewrite union_is_union by done. rewrite Htypes.
  destruct (every_stops Inv
              (fun member =>
                 some (fun m => _accepts m member ctx)
                   [s; schema (fun type ctx =>
                         ret (isTypeAssignableTo (checker ctx) type
                                (target (checker ctx))))])
              pre ci post) as [Hfalse Hthrow].
  { intros cj Hcj. destruct (Hpre cj Hcj) as (b & Hb & Hpass).
    rewrite <- Hpass. by apply some_with_primitive_Decides. }
  split.
  - intros Hs Hnone. apply Hfalse.
    pose proof (some_with_primitive_Decides Inv s target ci ctx false Hs)
      as Hdec.
    by rewrite Hnone in Hdec.
  - intros message Hraise. apply Hthrow. intros st Hst.
    rewrite some_with_primitive.
    destruct (Hraise st Hst) as (st' & -> & Hst'). by exists st'.
Qed.

(** X6.  [s.optional()] widens [s] by [undefined] and [s.nullable()] by
    [null].  On a candidate that is not a union: [true] when [s] returns
    [true], the oracle's answer for [undefined] (resp. [null]) when [s]
    returns [false], and the error of [s] when it raises.  A union candidate
    is taken apart and its constituents are tried in order, a constituent
    passing when [s] accepts it or it is assignable to [undefined] (resp.
    [null]): when [s] returns booleans on all constituents the result is
    [true] iff every constituent passes; after constituents that pass, a
    constituent that does not pass makes the result [false], and an error
    that [s] raises on a constituent propagates.  The first is marked
    optional, the second is not. *)
Theorem optional_and_nullable_widen (s : TypeSchema) :
  (_isOptional (optional s) = true /\ _isOptional (nullable s) = false) /\
  (forall c ctx st, isUnion c = false ->
     _accepts (optional s) c ctx st =
       match _accepts s c ctx st with
       | (Ok true, st') => (Ok true, st')
       | (Ok false, st') =>
           (Ok (isTypeAssignableTo (checker ctx) c
                  (getUndefinedType (checker ctx))), st')
       | (Throw e, st') => (Throw e, st')
       end /\
     _accepts (nullable s) c ctx st =
       match _accepts s c ctx st with
       | (Ok true, st') => (Ok true, st')
       | (Ok false, st') =>
           (Ok (isTypeAssignableTo (checker ctx) c
                  (getNullType (checker ctx))), st')
       | (Throw e, st') => (Throw e, st')
       end) /\
  (forall Inv c ctx, isUnion c = true ->
     (forall ci, ci ∈ types c -> exists b, Verdict Inv ctx s ci b) ->
     forall st, Inv st ->
     (exists b st',
        _accepts (optional s) c ctx st = (Ok b, st') /\ Inv st' /\
        (b = true <->
         forall ci, ci ∈ types c ->
           Accepts Inv ctx s ci \/
           isTypeAssignableTo (checker ctx) ci
             (getUndefinedType (checker ctx)) = true)) /\
     (exists b st',
        _accepts (nullable s) c ctx st = (Ok b, st') /\ Inv st' /\
        (b = true <->
         forall ci, ci ∈ types c ->
           Accepts Inv ctx s ci \/
           isTypeAssignableTo (checker ctx) ci
             (getNullType (checker ctx)) = true))) /\
  (forall Inv c ctx pre ci post, isUnion c = true ->
     types c = (pre ++ ci :: post)%list ->
     ((forall cj, cj ∈ pre ->
         exists b, Verdict Inv ctx s cj b /\
           b || isTypeAssignableTo (checker ctx) cj
                  (getUndefinedType (checker ctx)) = true) ->
      (Verdict Inv ctx s ci false ->
       isTypeAssignableTo (checker ctx) ci (getUndefinedType (checker ctx))
         = false ->
       Verdict Inv ctx (optional s) c false) /\
      (forall message, Raises Inv ctx s ci message ->
       Raises Inv ctx (optional s) c message)) /\
     ((forall cj, cj ∈ pre ->
         exists b, Verdict Inv ctx s cj b /\
           b || isTypeAssignableTo (checker ctx) cj
                  (getNullType (checker ctx)) = true) ->
      (Verdict Inv ctx s ci false ->
       isTypeAssignableTo (checker ctx) ci (getNullType (checker ctx))
         = false ->
       Verdict Inv ctx (nullable s) c false) /\
      (forall message, Raises Inv ctx s ci message ->
       Raises Inv ctx (nullable s) c message))).
Proof.
  split; [by split|]. split; [|split].
  - intros c ctx st Hnu. split.
    + change (_accepts (optional s) c ctx) with
        (_accepts (t.union [s; t.undefined]) c ctx).
      rewrite union_not_union by done.
      apply (some_with_primitive s getUndefinedType).
    + unfold nullable. rewrite union_not_union by done.
      apply (some_with_primitive s getNullType).
  - intros Inv c ctx Hu Hparts st Hst. split.
    + apply (widened_on_union Inv s getUndefinedType c ctx Hu Hparts st Hst).
    + apply (widened_on_union Inv s getNullType c ctx Hu Hparts st Hst).
  - intros Inv c ctx pre ci post Hu Htypes. split; intros Hpre.
    + apply (widened_on_union_ordered Inv s getUndefinedType c ctx pre ci post
               Hu Htypes Hpre).
    + apply (widened_on_union_ordered Inv s getNullType c ctx pre ci post
               Hu Htypes Hpre).
Qed.

(** X7.  The order of [.optional()] and [.nullable()] changes the optional
    flag only: [s.optional().nullable()] and [s.nullable().optional()] give
    the same outcome, state included, on every candidate that is not a union
    and on every union of such. *)
Theorem modifier_order_same_outcome (s : TypeSchema) (c : Ty)
    (ctx : SchemaContext) (st : State) :
  (isUnion c = true -> forall ci, ci ∈ types c -> isUnion ci = false) ->
  _accepts (nullable (optional s)) c ctx st
  = _accepts (optional (nullable s)) c ctx st.
Proof.
  assert (forall ci st1, isUnion ci = false ->
            some (fun m => _accepts m ci ctx) [optional s; t.null] st1
            = some (fun m => _accepts m ci ctx) [nullable s; t.undefined] st1)
    as Hpart.
  { intros ci st1 Hnu.
    rewrite (some_with_primitive (optional s) getNullType),
            (some_with_primitive (nullable s) getUndefinedType).
    change (_accepts (optional s) ci ctx) with
      (_accepts (t.union [s; t.undefined]) ci ctx).
    unfold nullable. rewrite !union_not_union by done.
    rewrite (some_with_primitive s getUndefinedType),
            (some_with_primitive s getNullType).
    destruct (_accepts s ci ctx st1) as [[[|]|e] st']; try reflexivity.
    destruct (isTypeAssignableTo (checker ctx) ci (getUndefinedType _)),
             (isTypeAssignableTo (checker ctx) ci (getNullType _));
      reflexivity. }
  intros Hparts.
  change (_accepts (optional (nullable s)) c ctx) with
    (_accepts (t.union [nullable s; t.undefined]) c ctx).
  change (nullable (optional s)) with (t.union [optional s; t.null]).
  destruct (isUnion c) eqn:Hu.
  - rewrite !union_is_union by done.
    apply every_ext_pointwise. intros ci Hci st1.
    apply Hpart. by apply Hparts.
  - rewrite !union_not_union by done. by apply Hpart.
Qed.

End ModifierFacts.

(** [number.optional()] and [number.nullable()] against [undefined] and
    [number | undefined]; and the [.optional()] of a schema that rejects
    [undefined] and throws on everything else, against [number | undefined],
    whose constituents are [undefined] (which passes) and [number]. *)
Lemma optional_and_nullable_widen_witness :
  let boom :=
    t.custom (host := Toy.toyHost)
      (fun type _ =>
         if bool_decide (type = Toy.TUndefined) then ret false
         else throw "boom") in
  _accepts (host := Toy.toyHost) (optional t.number) Toy.TUndefined
    Toy.ctxChecker Toy.fresh = (Ok true, Toy.fresh) /\
  _accepts (host := Toy.toyHost) (nullable t.number) Toy.TUndefined
    Toy.ctxChecker Toy.fresh = (Ok false, Toy.fresh) /\
  (exists b st',
     _accepts (host := Toy.toyHost) (optional t.number) Toy.TNumOrUndef
       Toy.ctxChecker Toy.fresh = (Ok b, st') /\ True /\
     (b = true <->
      forall ci, ci ∈ [Toy.TUndefined; Toy.TNumber] ->
        Accepts (fun _ => True) Toy.ctxChecker t.number ci \/
        Toy.assignable ci Toy.TUndefined = true)) /\
  Raises (fun _ => True) Toy.ctxChecker (optional boom) Toy.TNumOrUndef
    "boom" /\
  Verdict (host := Toy.toyHost) (fun _ => True) Toy.ctxChecker
    (nullable t.number) Toy.TNumOrUndef false.
Proof.
  intros boom.
  destruct (optional_and_nullable_widen (host := Toy.toyHost) t.number)
    as (_ & Hsingle & Hunion & Hordered).
  split; [|split; [|split; [|split]]].
  - by rewrite (proj1 (Hsingle Toy.TUndefined Toy.ctxChecker Toy.fresh eq_refl)).
  - by rewrite (proj2 (Hsingle Toy.TUndefined Toy.ctxChecker Toy.fresh eq_refl)).
  - apply (Hunion (fun _ => True) Toy.TNumOrUndef Toy.ctxChecker eq_refl);
      [|exact I].
    intros ci _. eexists. apply Decides_ret.
  - destruct (optional_and_nullable_widen (host := Toy.toyHost) boom)
      as (_ & _ & _ & Hboom).
    destruct (Hboom (fun _ => True) Toy.TNumOrUndef Toy.ctxChecker
                [Toy.TUndefined] Toy.TNumber [] eq_refl eq_refl)
      as [Hopt _].
    apply Hopt.
    + intros cj Hcj. apply list_elem_of_singleton in Hcj as ->.
      exists false. split; [apply Decides_ret|reflexivity].
    + intros st _. by exists st.
  - destruct (Hordered (fun _ => True) Toy.TNumOrUndef Toy.ctxChecker
                [] Toy.TUndefined [Toy.TNumber] eq_refl eq_refl)
      as [_ Hnull].
    apply Hnull.
    + intros cj Hcj. by apply elem_of_nil in Hcj.
    + apply Decides_ret.
    + reflexivity.
Defined.

(** Both orders on [number | null | undefined]. *)
Lemma modifier_order_same_outcome_witness :
  _accepts (host := Toy.toyHost) (nullable (optional t.number))
    Toy.TNumOrNullOrUndef Toy.ctxChecker Toy.fresh
  = _accepts (optional (nullable t.number))
      Toy.TNumOrNullOrUndef Toy.ctxChecker Toy.fresh.
Proof.
  apply (modifier_order_same_outcome (host := Toy.toyHost)).
  intros _ ci Hci.
  repeat (apply elem_of_cons in Hci as [->|Hci]; [reflexivity|]).
  by apply elem_of_nil in Hci.
Defined.

(** ** Absent and optional properties *)

Section PropertyFacts.
Context `{host : TsHost}.

(** X8.  On a candidate that has none of the properties of the shape, an
    object schema evaluates no property schema: it leaves the state as it is
    and accepts iff every entry of the shape is optional, whatever the
    property schemas would do (raise included). *)
Theorem object_without_shape_properties
    (shape : list (string * TypeSchema)) (c : Ty) (ctx : SchemaContext)
    (st : State) :
  (forall e, e ∈ shape -> getProperty c (fst e) = None) ->
  _accepts (t.object shape) c ctx st
  = (Ok (forallb (fun e => _isOptional (snd e)) shape), st).
Proof.
  rewrite object_unfold. revert st.
  induction shape as [|e shape IH]; intros st Habsent; [reflexivity|].
  rewrite every_cons. unfold checkEntry at 1.
  rewrite (Habsent e) by left. simpl.
  destruct (_isOptional (snd e)); [|reflexivity].
  apply IH. intros e' He'. apply Habsent. by right.
Qed.

Lemma checkEntry_optional_samePropertyType c c' ctx e :
  _isOptional (snd e) = true ->
  samePropertyType ctx (getProperty c (fst e)) (getProperty c' (fst e)) ->
  checkEntry c' ctx e = checkEntry c ctx e.
Proof.
  intros Hopt. unfold samePropertyType, checkEntry.
  destruct (getProperty c (fst e)) as [a|], (getProperty c' (fst e)) as [b|];
    try done.
  intros Hty. by rewrite Hopt, Hty.
Qed.

(** X9.  An object schema whose entries are all optional does not read the
    declared-optional flag: two candidates that agree, on the keys of the
    shape, on the presence and on the type of the property give the same
    outcome, also when they differ in the flag. *)
Theorem optional_entries_ignore_flag
    (shape : list (string * TypeSchema)) (c c' : Ty) (ctx : SchemaContext) :
  (forall e, e ∈ shape -> _isOptional (snd e) = true) ->
  (forall e, e ∈ shape ->
     samePropertyType ctx (getProperty c (fst e)) (getProperty c' (fst e))) ->
  _accepts (t.object shape) c' ctx = _accepts (t.object shape) c ctx.
Proof.
  intros Hopt Hsame. rewrite !object_unfold. apply every_ext.
  intros e He. apply checkEntry_optional_samePropertyType; auto.
Qed.

End PropertyFacts.

(** [{ label: string, y: number.optional() }] against [{ x: number }]: the
    required [label] is missing. *)
Lemma object_without_shape_properties_witness :
  _accepts (host := Toy.toyHost)
    (t.object [("label", t.string); ("y", optional t.number)])
    Toy.TOnlyX Toy.ctxChecker Toy.fresh = (Ok false, Toy.fresh).
Proof.
  apply (object_without_shape_properties (host := Toy.toyHost)
           [("label", t.string); ("y", optional t.number)]).
  intros e He.
  apply elem_of_cons in He as [->|He];
    [|apply list_elem_of_singleton in He as ->]; reflexivity.
Defined.

(** [{ y: number.optional() }] against [{ x; y: number | undefined }] and
    [{ x; y?: number }]: the two properties [y] have the same type and differ
    in the flag. *)
Lemma optional_entries_ignore_flag_witness :
  (Z.testbit (flags (Toy.property "y" Toy.TNumOrUndef)) 24 = false /\
   Z.testbit (flags (Toy.optionalProperty "y" Toy.TNumOrUndef)) 24 = true) /\
  getProperty Toy.TPointUndefY "y" = Some (Toy.property "y" Toy.TNumOrUndef) /\
  getProperty Toy.TPointOptY "y"
    = Some (Toy.optionalProperty "y" Toy.TNumOrUndef) /\
  _accepts (host := Toy.toyHost) (t.object [("y", optional t.number)])
    Toy.TPointOptY Toy.ctxChecker
  = _accepts (t.object [("y", optional t.number)]) Toy.TPointUndefY
      Toy.ctxChecker.
Proof.
  split; [by split|]. split; [reflexivity|]. split; [reflexivity|].
  apply (optional_entries_ignore_flag (host := Toy.toyHost)).
  - intros e He. by apply list_elem_of_singleton in He as ->.
  - intros e He. by apply list_elem_of_singleton in He as ->.
Defined.

(** ** Module references *)

Section ModuleFacts.
Context `{host : TsHost}.

(** X10.  Cache keys do not collide: two module references get the same key
    exactly when they have the same specifier, the same export name and, for
    a relative specifier, the same resolving file; whatever characters the
    names contain.  For a specifier that is not relative the source file of
    the context plays no role. *)
Theorem cacheKey_collision_free (moduleName exportName moduleName'
    exportName' : string) (sf sf' : option SourceFile) :
  cacheKey moduleName exportName sf = cacheKey moduleName' exportName' sf' <->
  moduleName = moduleName' /\ exportName = exportName' /\
  (isRelative moduleName = true -> fileName <$> sf = fileName <$> sf').
Proof.
  unfold cacheKey. split.
  - intros Heq. apply JSON_stringify_inj in Heq as (<- & <- & Hfile).
    split; [done|]. split; [done|]. intros Hrel. by rewrite Hrel in Hfile.
  - intros (<- & <- & Hfile).
    destruct (isRelative moduleName); [by rewrite Hfile|done].
Qed.

(** An evaluation that does not get past the guards raises and leaves the
    state as it is. *)
Lemma fromModule_stops_at_guard moduleName exportName ctx :
  ~ reachesCache ctx moduleName ->
  exists message, forall type st,
    _accepts (t.fromModule moduleName exportName) type ctx st
    = (Throw message, st).
Proof.
  intros Hguard. destruct (program ctx) as [p|] eqn:Hp.
  - exists MISSING_SOURCE_FILE. intros type st. simpl. rewrite Hp.
    destruct (isRelative moduleName) eqn:Hrel.
    + destruct (sourceFile ctx) eqn:Hs; [|done].
      exfalso. apply Hguard. split; [by rewrite Hp|]. by rewrite Hs.
    + exfalso. apply Hguard. split; [by rewrite Hp|]. by rewrite Hrel.
  - exists MISSING_PROGRAM. intros type st. simpl. by rewrite Hp.
Qed.

(** X11.  Evaluating a module reference a second time, from the state the
    first evaluation left, gives the same result and changes nothing: the
    first evaluation reaches a fixed point, whether it answered, raised at a
    guard or raised for an unresolved export. *)
Theorem fromModule_idempotent (moduleName exportName : string) (type : Ty)
    (ctx : SchemaContext) (st : State) :
  let out := _accepts (t.fromModule moduleName exportName) type ctx st in
  _accepts (t.fromModule moduleName exportName) type ctx (snd out) = out.
Proof.
  cbv zeta.
  destruct (decide (reachesCache ctx moduleName)) as [[[p Hp] Hsf]|Hguard].
  - rewrite (fromModule_eval moduleName exportName type ctx p st Hp Hsf).
    cbv zeta.
    destruct (entry st (checker ctx) _) as [v|] eqn:He.
    + cbn [snd]. rewrite (fromModule_eval _ _ _ _ p st Hp Hsf). cbv zeta.
      by rewrite He.
    + cbn [snd]. rewrite (fromModule_eval _ _ _ _ p _ Hp Hsf). cbv zeta.
      unfold entry at 1. simpl.
      rewrite lookup_insert_eq. simpl. by rewrite lookup_insert_eq.
  - destruct (fromModule_stops_at_guard moduleName exportName ctx Hguard)
      as [message Hthrow].
    by rewrite !Hthrow.
Qed.

(** X12.  For a specifier that is not relative the entry is shared by all
    contexts of a checker: once an evaluation has stored an outcome, an
    evaluation under another program or source file answers from that
    outcome, without resolving, even where its own resolution would differ. *)
Theorem fromModule_first_resolution_wins (moduleName exportName : string)
    (type1 type2 : Ty) (ctx1 ctx2 : SchemaContext) (p1 : Program)
    (st : State) :
  isRelative moduleName = false ->
  program ctx1 = Some p1 ->
  is_Some (program ctx2) ->
  checker ctx2 = checker ctx1 ->
  entry st (checker ctx1) (cacheKey moduleName exportName None) = None ->
  let st1 :=
    snd (_accepts (t.fromModule moduleName exportName) type1 ctx1 st) in
  _accepts (t.fromModule moduleName exportName) type2 ctx2 st1
  = (answerFrom (checker ctx1) moduleName exportName type2
       (resolveModuleType (checker ctx1) p1 moduleName exportName
          (sourceFile ctx1)),
     st1).
Proof.
  intros Hrel Hp1 [p2 Hp2] Hch Hnone st1.
  assert (forall sf, cacheKey moduleName exportName sf
                     = cacheKey moduleName exportName None) as Hkey.
  { intros sf. unfold cacheKey. by rewrite Hrel. }
  assert (forall ctx, isRelative moduleName = true -> is_Some (sourceFile ctx))
    as Hsf by (intros ctx; by rewrite Hrel).
  unfold st1.
  rewrite (fromModule_eval moduleName exportName type1 ctx1 p1 st Hp1 (Hsf ctx1)).
  cbv zeta. rewrite (Hkey (sourceFile ctx1)), Hnone. cbn [snd].
  rewrite (fromModule_eval moduleName exportName type2 ctx2 p2 _ Hp2 (Hsf ctx2)).
  cbv zeta. rewrite (Hkey (sourceFile ctx2)), Hch. unfold entry at 1. simpl.
  rewrite lookup_insert_eq. simpl. by rewrite lookup_insert_eq.
Qed.

(** X13.  What [resolveModuleType] returns is the declared type of an export
    of that name, taken from a module symbol that is either the symbol of the
    source file the specifier resolves to in the program, or an ambient module
    whose name is the specifier in double quotes.  The resolved file has
    precedence: when it yields a symbol, the ambient modules are not
    consulted. *)
Theorem resolveModuleType_sound (ch : TypeChecker) (p : Program)
    (moduleName exportName : string) (sf : option SourceFile) :
  let containingFile :=
    match sf with
    | Some f => fileName f
    | None => (getCurrentDirectory p ++ "/__typezod__.ts")%string
    end in
  let resolved :=
    match resolveModuleName moduleName containingFile (getCompilerOptions p)
    with
    | Some file =>
        match getSourceFile p file with
        | Some f => getSymbolAtLocation ch f
        | None => None
        end
    | None => None
    end in
  (forall ty, resolveModuleType ch p moduleName exportName sf = Some ty ->
     exists m e,
       (resolved = Some m \/
        resolved = None /\ m ∈ getAmbientModules ch /\
        getName m = (dquote ++ moduleName ++ dquote)%string) /\
       e ∈ getExportsOfModule ch m /\ getName e = exportName /\
       getDeclaredTypeOfSymbol ch e = ty) /\
  (forall m, resolved = Some m ->
     resolveModuleType ch p moduleName exportName sf
     = getDeclaredTypeOfSymbol ch <$>
         find (fun s => String.eqb (getName s) exportName)
              (getExportsOfModule ch m)).
Proof.
  intros containingFile resolved. split.
  - intros ty Hres. rewrite resolveModuleType_split in Hres.
    destruct (moduleSymbolOf ch p moduleName sf) as [m|] eqn:Hm; [|done].
    destruct (find _ (getExportsOfModule ch m)) as [e|] eqn:He; [|done].
    injection Hres as <-.
    apply find_some in He as [Hin Hname].
    apply String.eqb_eq in Hname.
    exists m, e. split; [|split; [by apply list_elem_of_In|done]].
    unfold moduleSymbolOf in Hm. fold containingFile in Hm. fold resolved in Hm.
    destruct resolved as [m'|]; [left; congruence|].
    right. split; [done|].
    apply find_some in Hm as [Hin' Hname'].
    apply String.eqb_eq in Hname'. split; [by apply list_elem_of_In|done].
  - intros m Hm. rewrite resolveModuleType_split.
    unfold moduleSymbolOf. fold containingFile. fold resolved. rewrite Hm.
    by destruct (find _ (getExportsOfModule ch m)).
Qed.

End ModuleFacts.

(** [fromModule("fake-lib", "Gadget")] evaluated under the program that
    contains the package, then under a program without it: the second
    evaluation accepts [gadget] from the stored outcome. *)
Lemma fromModule_first_resolution_wins_witness :
  let s := t.fromModule (host := Toy.toyHost) "fake-lib" "Gadget" in
  let other :=
    mkContext 0%nat (Some Toy.programWithoutLib) (Some Toy.testFile) in
  let st1 := snd (_accepts s Toy.TString Toy.ctxProgram Toy.fresh) in
  resolveModuleType (host := Toy.toyHost) 0%nat Toy.programWithoutLib
    "fake-lib" "Gadget" (Some Toy.testFile) = None /\
  _accepts s Toy.TGadget other st1 = (Ok true, st1).
Proof.
  intros s other st1. split; [reflexivity|].
  subst s st1.
  rewrite (fromModule_first_resolution_wins (host := Toy.toyHost)
             "fake-lib" "Gadget" Toy.TString Toy.TGadget Toy.ctxProgram other
             Toy.programWithLib Toy.fresh eq_refl eq_refl);
    [reflexivity | by eexists | reflexivity | reflexivity].
Defined.

(** [Gadget] of [fake-lib] comes from the module symbol of the resolved
    file. *)
Lemma resolveModuleType_sound_witness :
  exists m e,
    (getSymbolAtLocation (TsHost := Toy.toyHost) 0%nat Toy.fakeLibFile = Some m \/
     getSymbolAtLocation (TsHost := Toy.toyHost) 0%nat Toy.fakeLibFile = None /\
     m ∈ getAmbientModules (TsHost := Toy.toyHost) 0%nat /\
     getName m = (dquote ++ "fake-lib" ++ dquote)%string) /\
    e ∈ getExportsOfModule (TsHost := Toy.toyHost) 0%nat m /\
    getName e = "Gadget" /\
    getDeclaredTypeOfSymbol (TsHost := Toy.toyHost) 0%nat e = Toy.TGadget.
Proof.
  apply (proj1 (resolveModuleType_sound (host := Toy.toyHost) 0%nat
                  Toy.programWithLib "fake-lib" "Gadget" None) Toy.TGadget).
  reflexivity.
Defined.

(** ** Presence tests and allocation *)

Section PresenceFacts.
Context `{host : TsHost}.

(** X14.  An object schema whose property schemas are all [t.any()] tests
    that the properties are there and required: it accepts iff every key of
    the shape names a property of the candidate that is not declared
    optional; the types of the properties are not looked at. *)
Theorem object_of_any_tests_presence (keys : list string) (c : Ty)
    (ctx : SchemaContext) (st : State) :
  _accepts (t.object (map (fun key => (key, t.any)) keys)) c ctx st
  = (Ok (forallb
           (fun key =>
              match getProperty c key with
              | Some propSymbol => negb (Z.testbit (flags propSymbol) 24)
              | None => false
              end) keys), st).
Proof.
  rewrite object_unfold. revert st.
  induction keys as [|key keys IH]; intros st; [reflexivity|].
  cbn [map forallb]. rewrite every_cons. unfold checkEntry at 1. cbn [fst snd].
  destruct (getProperty c key) as [propSymbol|]; [|reflexivity].
  rewrite optional_flag_test.
  change (_isOptional t.any) with false. cbn [negb andb].
  destruct (Z.testbit (flags propSymbol) 24); [reflexivity|].
  cbn [negb andb]. apply IH.
Qed.

(** X15.  Each modifier call allocates a fixed number of schema objects and
    returns the last one: [.optional()] three (the [undefined] schema, the
    union and the optional node), [.nullable()] two, [.nullish()] five. *)
Theorem modifier_allocations (h : Heap) (this : nat) (s : TypeSchema) :
  h !! this = Some s ->
  (exists h', optional_method this h = Some ((List.length h + 2)%nat, h') /\
     List.length h' = (List.length h + 3)%nat) /\
  (exists h', nullable_method this h = Some ((List.length h + 1)%nat, h') /\
     List.length h' = (List.length h + 2)%nat) /\
  (exists h', nullish_method this h = Some ((List.length h + 4)%nat, h') /\
     List.length h' = (List.length h + 5)%nat).
Proof.
  intros Hthis. split; [|split]; eexists.
  - rewrite (optional_method_eval h this s Hthis).
    split; [by rewrite Nat.add_comm|]. by rewrite length_app.
  - rewrite (nullable_method_eval h this s Hthis).
    split; [by rewrite Nat.add_comm|]. by rewrite length_app.
  - rewrite (nullish_method_eval h this s Hthis).
    split; [by rewrite Nat.add_comm|]. by rewrite length_app.
Qed.

End PresenceFacts.

(** A heap that holds [t.string()] at address 0. *)
Lemma modifier_allocations_witness :
  exists h',
    nullish_method (host := Toy.toyHost) 0 [t.string] = Some (5%nat, h') /\
    List.length h' = 6%nat.
Proof.
  destruct (modifier_allocations (host := Toy.toyHost) [t.string] 0 t.string
              eq_refl) as (_ & _ & Hnullish).
  exact Hnullish.
Defined.

(** ** The cache is transparent *)

Section TransparencyFacts.
Context `{host : TsHost}.

(** X16.  Memoisation does not change answers.  From a cache that agrees
    with the resolver (as the empty cache does), an evaluation of a module
    reference that gets past the guards answers exactly as an evaluation
    without cache would, from what [resolveModuleType] returns, and leaves a
    cache that still agrees with the resolver. *)
Theorem fromModule_cache_transparent (moduleName exportName : string)
    (type : Ty) (ctx : SchemaContext) (p : Program) (st : State) :
  program ctx = Some p ->
  (isRelative moduleName = true -> is_Some (sourceFile ctx)) ->
  (forall n, coherent ctx p (mkState ∅ n)) /\
  (coherent ctx p st ->
   let out := _accepts (t.fromModule moduleName exportName) type ctx st in
   fst out
   = answerFrom (checker ctx) moduleName exportName type
       (resolveModuleType (checker ctx) p moduleName exportName
          (sourceFile ctx)) /\
   coherent ctx p (snd out)).
Proof.
  intros Hp Hsf. split.
  { intros n m e v. unfold entry. simpl. by rewrite lookup_empty. }
  intros Hst. cbv zeta.
  rewrite (fromModule_eval moduleName exportName type ctx p st Hp Hsf). cbv zeta.
  destruct (entry st (checker ctx) _) as [v|] eqn:He.
  - split; [|done]. cbn [fst]. by rewrite (Hst moduleName exportName v He).
  - split; [done|]. cbn [snd].
    intros moduleName' exportName' v. unfold entry. simpl.
    rewrite lookup_insert_eq. simpl.
    destruct (decide (cacheKey moduleName exportName (sourceFile ctx)
                      = cacheKey moduleName' exportName' (sourceFile ctx)))
      as [Heq|Hne].
    + rewrite <- Heq, lookup_insert_eq. intros [= <-].
      unfold cacheKey in Heq.
      by apply JSON_stringify_inj in Heq as (-> & -> & _).
    + rewrite lookup_insert_ne by done. apply Hst.
Qed.



End TransparencyFacts.

(** [fromModule("fake-lib", "Gadget")] from the fresh state. *)
Lemma fromModule_cache_transparent_witness :
  let out :=
    _accepts (host := Toy.toyHost) (t.fromModule "fake-lib" "Gadget")
      Toy.TGadget Toy.ctxProgram Toy.fresh in
  fst out = Ok true /\ coherent Toy.ctxProgram Toy.programWithLib (snd out).
Proof.
  destruct (fromModule_cache_transparent (host := Toy.toyHost)
              "fake-lib" "Gadget" Toy.TGadget Toy.ctxProgram
              Toy.programWithLib Toy.fresh eq_refl) as [Hfresh Hout].
  { discriminate. }
  destruct (Hout (Hfresh 0%nat)) as [Hres Hcoh].
  split; [|exact Hcoh]. rewrite Hres. reflexivity.
Defined.


(** The same relative specifier and export resolved from two files: two
    keys. *)
Lemma cacheKey_collision_free_witness :
  cacheKey (host := Toy.toyHost) "./lib" "Widget" (Some Toy.testFile)
  <> cacheKey (host := Toy.toyHost) "./lib" "Widget" (Some Toy.fakeLibFile).
Proof.
  intros Heq.
  apply (cacheKey_collision_free (host := Toy.toyHost)) in Heq
    as (_ & _ & Hfile).
  specialize (Hfile eq_refl). discriminate.
Defined.
